(** * CodePlug: the field accessor (CodePlug::Element) and the
      cross-reference registry (CodePlug::Context) of lib/codeplug.cc

    The development embeds the two classes of [lib/codeplug.cc] as Rocq
    functions and proves the properties the design document states about
    them.

    Conventions of the embedding.
    - The byte region an [Element] points to is a [list Z]; every entry is
      one [uint8_t].  [_size] is the length of the list.
    - C++ leaves out-of-bounds accesses, null dereferences and shifts by
      32 or more undefined.  Every operation therefore returns an
      [option]: [None] stands for undefined behaviour, [Some] for the
      value (or the new buffer) the operation produces.
    - [uint] offsets, bit positions and lengths are [nat]; integer values
      are [Z], with every narrowing conversion written out.
    - The byte order of the host is a parameter, [host]; the code itself
      only goes through [qToBigEndian] and friends.  A 16-bit or 32-bit
      object may sit at any offset: alignment is not modelled. *)

From Stdlib Require Import ZArith Lia.
From stdpp Require Import base option list gmap strings.

Local Open Scope Z_scope.

Module CodePlug.

(** ** Integer conversions *)

(** Conversion to [uint8_t], [uint16_t] and [uint32_t]. *)
Definition uint8_t (z : Z) : Z := z mod 2 ^ 8.
Definition uint16_t (z : Z) : Z := z mod 2 ^ 16.
Definition uint32_t (z : Z) : Z := z mod 2 ^ 32.

(** Conversion of a 32-bit pattern to [int] (two's complement). *)
Definition int (z : Z) : Z := (z + 2 ^ 31) mod 2 ^ 32 - 2 ^ 31.

(** [x << bit] and [x >> bit] on a promoted [int]: undefined from 32 on.
    The result is the mathematical one; whatever a 32-bit [int] drops of
    it lies above the low byte the callers keep. *)
Definition shl (x : Z) (bit : nat) : option Z :=
  if decide (bit < 32)%nat then Some (x ≪ Z.of_nat bit) else None.
Definition shr (x : Z) (bit : nat) : option Z :=
  if decide (bit < 32)%nat then Some (x ≫ Z.of_nat bit) else None.

(** ** Raw memory *)

(** [*(ptr+p)] as an rvalue. *)
Definition peek (d : list Z) (p : nat) : option Z := d !! p.

(** [*(ptr+p) = v] for a [uint8_t] lvalue. *)
Definition poke (d : list Z) (p : nat) (v : Z) : option (list Z) :=
  if decide (p < length d)%nat then Some (<[p := uint8_t v]> d) else None.

(** [n] consecutive bytes at [p], and their replacement by [bs]. *)
Definition peeks (d : list Z) (p n : nat) : option (list Z) :=
  if decide (p + n <= length d)%nat then Some (take n (drop p d)) else None.
Definition pokes (d : list Z) (p : nat) (bs : list Z) : option (list Z) :=
  if decide (p + length bs <= length d)%nat
  then Some (take p d ++ bs ++ drop (p + length bs) d) else None.

(** ** Byte order (QtEndian) *)

Inductive ByteOrder := LittleEndian | BigEndian.

(** The [n] low bytes of [v], least significant first, and back. *)
Fixpoint le_bytes (n : nat) (v : Z) : list Z :=
  match n with
  | O => []
  | S n' => v mod 256 :: le_bytes n' (v / 256)
  end.
Fixpoint le_value (bs : list Z) : Z :=
  match bs with
  | [] => 0
  | b :: bs' => b + 256 * le_value bs'
  end.

(** Object representation of an [n]-byte unsigned integer on [host]. *)
Definition host_bytes (host : ByteOrder) (n : nat) (v : Z) : list Z :=
  match host with
  | LittleEndian => le_bytes n v
  | BigEndian => rev (le_bytes n v)
  end.
Definition host_value (host : ByteOrder) (bs : list Z) : Z :=
  match host with
  | LittleEndian => le_value bs
  | BigEndian => le_value (rev bs)
  end.

(** The [uintN_t] object at [ptr+p], read and written through a cast
    pointer, [N = 8 n]. *)
Definition load (host : ByteOrder) (n : nat) (d : list Z) (p : nat) : option Z :=
  bs ← peeks d p n; Some (host_value host bs).
Definition store (host : ByteOrder) (n : nat) (d : list Z) (p : nat) (v : Z)
  : option (list Z) :=
  pokes d p (host_bytes host n v).

(** [qbswap] and the four conversions, as QtEndian documents them. *)
Definition qbswap (n : nat) (v : Z) : Z := le_value (rev (le_bytes n v)).
Definition qToBigEndian (host : ByteOrder) (n : nat) (v : Z) : Z :=
  match host with BigEndian => v | LittleEndian => qbswap n v end.
Definition qFromBigEndian (host : ByteOrder) (n : nat) (v : Z) : Z :=
  match host with BigEndian => v | LittleEndian => qbswap n v end.
Definition qToLittleEndian (host : ByteOrder) (n : nat) (v : Z) : Z :=
  match host with LittleEndian => v | BigEndian => qbswap n v end.
Definition qFromLittleEndian (host : ByteOrder) (n : nat) (v : Z) : Z :=
  match host with LittleEndian => v | BigEndian => qbswap n v end.

(** ** CodePlug::Element: single bits *)

Definition getBit (d : list Z) (offset bit : nat) : option bool :=
  p ← peek d offset;
  m ← shl 1 bit;
  Some (negb (Z.land m p =? 0)).

Definition setBit (d : list Z) (offset bit : nat) (value : bool)
  : option (list Z) :=
  p ← peek d offset;
  m ← shl 1 bit;
  if value then poke d offset (Z.lor p m)
  else poke d offset (Z.land p (Z.lnot m)).

Definition clearBit (d : list Z) (offset bit : nat) : option (list Z) :=
  p ← peek d offset;
  m ← shl 1 bit;
  poke d offset (Z.land p (Z.lnot m)).

(** ** CodePlug::Element: sub-byte fields

    The five getters and the five setters differ in the mask only. *)

Definition getField (mask : Z) (d : list Z) (offset bit : nat) : option Z :=
  p ← peek d offset;
  s ← shr p bit;
  Some (uint8_t (Z.land s mask)).

Definition setField (mask : Z) (d : list Z) (offset bit : nat) (value : Z)
  : option (list Z) :=
  p ← peek d offset;
  m ← shl mask bit;
  d1 ← poke d offset (Z.land p (Z.lnot m));
  p1 ← peek d1 offset;
  v ← shl (Z.land (uint8_t value) mask) bit;
  poke d1 offset (Z.lor p1 v).

Definition getUInt2 := getField 0x3.
Definition setUInt2 := setField 0x3.
Definition getUInt3 := getField 0x7.
Definition setUInt3 := setField 0x7.
Definition getUInt4 := getField 0xf.
Definition setUInt4 := setField 0xf.
Definition getUInt5 := getField 0x1f.
Definition setUInt5 := setField 0x1f.
Definition getUInt6 := getField 0x3f.
Definition setUInt6 := setField 0x3f.

(** ** CodePlug::Element: whole integers *)

Definition getUInt8 (d : list Z) (offset : nat) : option Z := peek d offset.
Definition setUInt8 (d : list Z) (offset : nat) (value : Z) : option (list Z) :=
  poke d offset value.

Definition getUInt16_be (host : ByteOrder) (d : list Z) (offset : nat) : option Z :=
  w ← load host 2 d offset; Some (qFromBigEndian host 2 w).
Definition getUInt16_le (host : ByteOrder) (d : list Z) (offset : nat) : option Z :=
  w ← load host 2 d offset; Some (qFromLittleEndian host 2 w).
Definition setUInt16_be (host : ByteOrder) (d : list Z) (offset : nat) (value : Z)
  : option (list Z) :=
  store host 2 d offset (qToBigEndian host 2 (uint16_t value)).
Definition setUInt16_le (host : ByteOrder) (d : list Z) (offset : nat) (value : Z)
  : option (list Z) :=
  store host 2 d offset (qToLittleEndian host 2 (uint16_t value)).

Definition getUInt24_be (d : list Z) (offset : nat) : option Z :=
  p0 ← peek d offset;
  p1 ← peek d (offset + 1);
  p2 ← peek d (offset + 2);
  Some (uint32_t (p2 + (p1 ≪ 8) + (p0 ≪ 16))).
Definition getUInt24_le (d : list Z) (offset : nat) : option Z :=
  p0 ← peek d offset;
  p1 ← peek d (offset + 1);
  p2 ← peek d (offset + 2);
  Some (uint32_t (p0 + (p1 ≪ 8) + (p2 ≪ 16))).
Definition setUInt24_be (d : list Z) (offset : nat) (value : Z) : option (list Z) :=
  d0 ← poke d offset (Z.land (value ≫ 16) 0xff);
  d1 ← poke d0 (offset + 1) (Z.land (value ≫ 8) 0xff);
  poke d1 (offset + 2) (Z.land (value ≫ 0) 0xff).
Definition setUInt24_le (d : list Z) (offset : nat) (value : Z) : option (list Z) :=
  d0 ← poke d offset (Z.land (value ≫ 0) 0xff);
  d1 ← poke d0 (offset + 1) (Z.land (value ≫ 8) 0xff);
  poke d1 (offset + 2) (Z.land (value ≫ 16) 0xff).

Definition getUInt32_be (host : ByteOrder) (d : list Z) (offset : nat) : option Z :=
  w ← load host 4 d offset; Some (qFromBigEndian host 4 w).
Definition getUInt32_le (host : ByteOrder) (d : list Z) (offset : nat) : option Z :=
  w ← load host 4 d offset; Some (qFromLittleEndian host 4 w).
Definition setUInt32_be (host : ByteOrder) (d : list Z) (offset : nat) (value : Z)
  : option (list Z) :=
  store host 4 d offset (qToBigEndian host 4 (uint32_t value)).
Definition setUInt32_le (host : ByteOrder) (d : list Z) (offset : nat) (value : Z)
  : option (list Z) :=
  store host 4 d offset (qToLittleEndian host 4 (uint32_t value)).

(** ** CodePlug::Element: binary-coded decimals

    All operands are unsigned, so [/] and [%] are [Z.div] and [Z.modulo]. *)

Definition getBCD2 (d : list Z) (offset : nat) : option Z :=
  val ← getUInt8 d offset;
  Some (uint8_t (Z.land val 0xf + Z.land (val ≫ 4) 0xf * 10)).
Definition setBCD2 (d : list Z) (offset : nat) (val : Z) : option (list Z) :=
  let val := uint8_t val in
  let a := uint8_t ((val / 10) mod 10) in
  let b := uint8_t ((val / 1) mod 10) in
  setUInt8 d offset ((a ≪ 4) + b).

(** The nibbles of a 16-bit and of a 32-bit word, weighted by powers of
    ten: the expression the four wide getters return. *)
Definition unpackBCD4 (val : Z) : Z :=
  Z.land val 0xf + Z.land (val ≫ 4) 0xf * 10 + Z.land (val ≫ 8) 0xf * 100
  + Z.land (val ≫ 12) 0xf * 1000.
Definition unpackBCD8 (val : Z) : Z :=
  Z.land val 0xf + Z.land (val ≫ 4) 0xf * 10 + Z.land (val ≫ 8) 0xf * 100
  + Z.land (val ≫ 12) 0xf * 1000 + Z.land (val ≫ 16) 0xf * 10000
  + Z.land (val ≫ 20) 0xf * 100000 + Z.land (val ≫ 24) 0xf * 1000000
  + Z.land (val ≫ 28) 0xf * 10000000.

(** The digits of [val], one per nibble: the argument the four wide
    setters pass on. *)
Definition packBCD4 (val : Z) : Z :=
  let a := uint32_t ((val / 1000) mod 10) in
  let b := uint32_t ((val / 100) mod 10) in
  let c := uint32_t ((val / 10) mod 10) in
  let d := uint32_t ((val / 1) mod 10) in
  uint32_t ((a ≪ 12) + (b ≪ 8) + (c ≪ 4) + d).
Definition packBCD8 (val : Z) : Z :=
  let a := uint32_t ((val / 10000000) mod 10) in
  let b := uint32_t ((val / 1000000) mod 10) in
  let c := uint32_t ((val / 100000) mod 10) in
  let d := uint32_t ((val / 10000) mod 10) in
  let e := uint32_t ((val / 1000) mod 10) in
  let f := uint32_t ((val / 100) mod 10) in
  let g := uint32_t ((val / 10) mod 10) in
  let h := uint32_t ((val / 1) mod 10) in
  uint32_t ((a ≪ 28) + (b ≪ 24) + (c ≪ 20) + (d ≪ 16) + (e ≪ 12) + (f ≪ 8)
            + (g ≪ 4) + h).

Definition getBCD4_be (host : ByteOrder) (d : list Z) (offset : nat) : option Z :=
  val ← getUInt16_be host d offset; Some (uint16_t (unpackBCD4 val)).
Definition setBCD4_be (host : ByteOrder) (d : list Z) (offset : nat) (val : Z)
  : option (list Z) :=
  setUInt16_be host d offset (packBCD4 (uint16_t val)).
Definition getBCD4_le (host : ByteOrder) (d : list Z) (offset : nat) : option Z :=
  val ← getUInt16_le host d offset; Some (uint16_t (unpackBCD4 val)).
Definition setBCD4_le (host : ByteOrder) (d : list Z) (offset : nat) (val : Z)
  : option (list Z) :=
  setUInt16_le host d offset (packBCD4 (uint16_t val)).

Definition getBCD8_be (host : ByteOrder) (d : list Z) (offset : nat) : option Z :=
  val ← getUInt32_be host d offset; Some (uint32_t (unpackBCD8 val)).
Definition setBCD8_be (host : ByteOrder) (d : list Z) (offset : nat) (val : Z)
  : option (list Z) :=
  setUInt32_be host d offset (packBCD8 (uint32_t val)).
Definition getBCD8_le (host : ByteOrder) (d : list Z) (offset : nat) : option Z :=
  val ← getUInt32_le host d offset; Some (uint32_t (unpackBCD8 val)).
Definition setBCD8_le (host : ByteOrder) (d : list Z) (offset : nat) (val : Z)
  : option (list Z) :=
  setUInt32_le host d offset (packBCD8 (uint32_t val)).

(** ** CodePlug::Element: text

    A [QString] is its sequence of UTF-16 code units.  [QChar::fromLatin1]
    maps a byte to the code unit of the same value; [QChar::toLatin1]
    yields 0 for a code unit above 0xff. *)

Definition fromLatin1 (c : Z) : Z := c.
Definition toLatin1 (u : Z) : Z := if decide (0xff < u) then 0 else u.

(** The loop of [readASCII] with [n = maxlen - i] iterations to go. *)
Fixpoint readASCII_loop (d : list Z) (offset : nat) (eos : Z) (n i : nat)
    (txt : list Z) : option (list Z) :=
  match n with
  | O => Some txt
  | S n' =>
      c ← peek d (offset + i);
      if decide (c = 0) then Some txt
      else if decide (eos = c) then Some txt
      else readASCII_loop d offset eos n' (S i) (txt ++ [fromLatin1 c])
  end.
Definition readASCII (d : list Z) (offset maxlen : nat) (eos : Z)
  : option (list Z) :=
  readASCII_loop d offset (uint8_t eos) maxlen 0 [].

(** The loop of [writeASCII]; [txt !! i] is [Some] exactly when
    [i < txt.length()]. *)
Fixpoint writeASCII_loop (d : list Z) (offset : nat) (txt : list Z) (eos : Z)
    (n i : nat) : option (list Z) :=
  match n with
  | O => Some d
  | S n' =>
      d' ← match txt !! i with
           | Some u => poke d (offset + i) (toLatin1 u)
           | None => poke d (offset + i) eos
           end;
      writeASCII_loop d' offset txt eos n' (S i)
  end.
Definition writeASCII (d : list Z) (offset : nat) (txt : list Z) (maxlen : nat)
    (eos : Z) : option (list Z) :=
  writeASCII_loop d offset txt (uint8_t eos) maxlen 0.

(** [readUnicode] and [writeUnicode] index a [uint16_t] pointer: element
    [i] occupies the bytes [offset + 2 i] and [offset + 2 i + 1], in host
    order. *)
Fixpoint readUnicode_loop (host : ByteOrder) (d : list Z) (offset : nat) (eos : Z)
    (n i : nat) (txt : list Z) : option (list Z) :=
  match n with
  | O => Some txt
  | S n' =>
      c ← load host 2 d (offset + 2 * i);
      if decide (eos = c) then Some txt
      else readUnicode_loop host d offset eos n' (S i) (txt ++ [c])
  end.
Definition readUnicode (host : ByteOrder) (d : list Z) (offset maxlen : nat)
    (eos : Z) : option (list Z) :=
  readUnicode_loop host d offset (uint16_t eos) maxlen 0 [].

Fixpoint writeUnicode_loop (host : ByteOrder) (d : list Z) (offset : nat)
    (txt : list Z) (eos : Z) (n i : nat) : option (list Z) :=
  match n with
  | O => Some d
  | S n' =>
      d' ← match txt !! i with
           | Some u => store host 2 d (offset + 2 * i) u
           | None => store host 2 d (offset + 2 * i) eos
           end;
      writeUnicode_loop host d' offset txt eos n' (S i)
  end.
Definition writeUnicode (host : ByteOrder) (d : list Z) (offset : nat)
    (txt : list Z) (maxlen : nat) (eos : Z) : option (list Z) :=
  writeUnicode_loop host d offset txt (uint16_t eos) maxlen 0.

(** ** CodePlug::Context

    A [QMetaObject] carries its class name and, unless it is the root of
    its hierarchy ([superClass()] is null), its super class.  A
    [ConfigObject] pointer is the address of the object; [metaObject]
    gives the dynamic type of the object at an address. *)

Inductive QMetaObject :=
| RootClass (name : string)
| SubClass (name : string) (super : QMetaObject).

Definition className (m : QMetaObject) : string :=
  match m with RootClass name | SubClass name _ => name end.
Definition superClass (m : QMetaObject) : option QMetaObject :=
  match m with RootClass _ => None | SubClass _ super => Some super end.

Abbreviation ConfigObject := positive.

(** The two hashes of a table.  [objects] is keyed and [indices] is
    valued by the [uint] the caller of [add] passes. *)
Record Table := mkTable {
  objects : gmap Z ConfigObject;
  indices : gmap ConfigObject Z
}.

Record Context := mkContext { _tables : gmap string Table }.

Fixpoint hasTable (ctx : Context) (obj : QMetaObject) : bool :=
  if decide (is_Some (_tables ctx !! className obj)) then true
  else match obj with
       | SubClass _ super => hasTable ctx super
       | RootClass _ => false
       end.

(** [getTable] returns a reference into [_tables]: the key of the entry
    it refers to.  [None] is the dereference of a null super class. *)
Fixpoint getTable (ctx : Context) (obj : QMetaObject) : option string :=
  if decide (is_Some (_tables ctx !! className obj)) then Some (className obj)
  else match obj with
       | SubClass _ super => getTable ctx super
       | RootClass _ => None
       end.

(** Reading through the reference, and writing [t] through it. *)
Definition tableAt (ctx : Context) (obj : QMetaObject) : option Table :=
  k ← getTable ctx obj; _tables ctx !! k.
Definition setTableAt (ctx : Context) (obj : QMetaObject) (t : Table)
  : option Context :=
  k ← getTable ctx obj; Some (mkContext (<[k := t]> (_tables ctx))).

Definition addTable (ctx : Context) (obj : QMetaObject) : bool * Context :=
  if hasTable ctx obj then (false, ctx)
  else (true, mkContext (<[className obj := mkTable ∅ ∅]> (_tables ctx))).

(** The ten classes the constructor registers, in its order. *)
Record StaticMetaObjects := mkStatics {
  RadioID : QMetaObject;
  DigitalContact : QMetaObject;
  DTMFContact : QMetaObject;
  RXGroupList : QMetaObject;
  Channel : QMetaObject;
  Zone : QMetaObject;
  ScanList : QMetaObject;
  GPSSystem : QMetaObject;
  APRSSystem : QMetaObject;
  RoamingZone : QMetaObject
}.

Definition newContext (cls : StaticMetaObjects) : Context :=
  let c := mkContext ∅ in
  let c := snd (addTable c (RadioID cls)) in
  let c := snd (addTable c (DigitalContact cls)) in
  let c := snd (addTable c (DTMFContact cls)) in
  let c := snd (addTable c (RXGroupList cls)) in
  let c := snd (addTable c (Channel cls)) in
  let c := snd (addTable c (Zone cls)) in
  let c := snd (addTable c (ScanList cls)) in
  let c := snd (addTable c (GPSSystem cls)) in
  let c := snd (addTable c (APRSSystem cls)) in
  let c := snd (addTable c (RoamingZone cls)) in
  c.

Section Registry.
Variable metaObject : ConfigObject → QMetaObject.

(** [nullptr] is [None] in the result. *)
Definition obj (ctx : Context) (elementType : QMetaObject) (idx : Z)
  : option (option ConfigObject) :=
  if negb (hasTable ctx elementType) then Some None
  else t ← tableAt ctx elementType; Some (objects t !! idx).

(** [value(obj, -1)] yields the stored [uint] or the default; the result
    leaves as an [int]. *)
Definition index (ctx : Context) (o : ConfigObject) : option Z :=
  if negb (hasTable ctx (metaObject o)) then Some (-1)
  else t ← tableAt ctx (metaObject o);
       Some (int (default (-1) (indices t !! o))).

Definition add (ctx : Context) (o : ConfigObject) (idx : Z)
  : option (bool * Context) :=
  if negb (hasTable ctx (metaObject o)) then Some (false, ctx)
  else
    t ← tableAt ctx (metaObject o);
    if decide (is_Some (indices t !! o)) then Some (false, ctx)
    else
      t ← tableAt ctx (metaObject o);
      if decide (is_Some (objects t !! idx)) then Some (false, ctx)
      else
        t ← tableAt ctx (metaObject o);
        ctx1 ← setTableAt ctx (metaObject o)
                 (mkTable (<[idx := o]> (objects t)) (indices t));
        t1 ← tableAt ctx1 (metaObject o);
        ctx2 ← setTableAt ctx1 (metaObject o)
                 (mkTable (objects t1) (<[o := idx]> (indices t1)));
        Some (true, ctx2).

(** The contexts a session can be in: the constructor's, and whatever
    [addTable] and [add] make of one. *)
Inductive reachable (cls : StaticMetaObjects) : Context → Prop :=
| reach_new : reachable cls (newContext cls)
| reach_addTable ctx m :
    reachable cls ctx → reachable cls (snd (addTable ctx m))
| reach_add ctx o idx r ctx' :
    reachable cls ctx → add ctx o idx = Some (r, ctx') → reachable cls ctx'.
End Registry.

(** The class named [cat] has a table, [t] is that class or descends from
    it, and no class from [t] up to it, [cat] apart, has a table. *)
Inductive nearestTable (ctx : Context) : QMetaObject → string → Prop :=
| nearest_here t :
    is_Some (_tables ctx !! className t) → nearestTable ctx t (className t)
| nearest_above t s cat :
    _tables ctx !! className t = None → superClass t = Some s →
    nearestTable ctx s cat → nearestTable ctx t cat.

(** ** Frames

    [modifies_only p w d d']: the buffer keeps its size and differs from
    [d] at most in the [w] bytes from [p] on. *)
Definition modifies_only (p w : nat) (d d' : list Z) : Prop :=
  length d' = length d ∧
  ∀ j : nat, ¬ (p ≤ j < p + w)%nat → d' !! j = d !! j.

(** A value is a byte, a buffer holds bytes. *)
Definition is_byte (b : Z) : Prop := 0 ≤ b < 256.

(** The sub-byte accessors with the width of their field. *)
Definition subByteFields
  : list (nat * (list Z → nat → nat → option Z)
              * (list Z → nat → nat → Z → option (list Z))) :=
  [ (2%nat, getUInt2, setUInt2); (3%nat, getUInt3, setUInt3);
    (4%nat, getUInt4, setUInt4); (5%nat, getUInt5, setUInt5);
    (6%nat, getUInt6, setUInt6) ].


(** The 32-bit value with the four bytes of [x] in the opposite order. *)
Definition byteReversed32 (x : Z) : Z :=
  (x mod 256) * 2 ^ 24 + (x / 2 ^ 8 mod 256) * 2 ^ 16
  + (x / 2 ^ 16 mod 256) * 2 ^ 8 + x / 2 ^ 24 mod 256.

(** [set] then [get], wherever [w] bytes fit, gives back the [D] low
    decimal digits of a value of [8 w] bits, and so the value itself when
    it has no more than [D] digits. *)
Definition bcdRoundTrip (w : nat) (D : Z)
    (set : list Z → nat → Z → option (list Z))
    (get : list Z → nat → option Z) : Prop :=
  ∀ (d : list Z) (offset : nat) (v : Z),
    (offset + w ≤ length d)%nat → 0 ≤ v < 2 ^ (8 * Z.of_nat w) →
    ∃ d', set d offset v = Some d'
          ∧ get d' offset = Some (v mod 10 ^ D)
          ∧ (v < 10 ^ D → get d' offset = Some v).

(** Whatever buffer the write [r] of [w] bytes at [offset] produces
    differs from [d] in those bytes at most. *)
Definition frame (w : nat) (d : list Z) (offset : nat) (r : option (list Z))
  : Prop :=
  ∀ d', r = Some d' → modifies_only offset w d d'.

(** A text [writeASCII] and [readASCII] carry unchanged: Latin-1 code
    units, none of them null or the terminator. *)
Definition plainLatin1 (eos : Z) (s : list Z) : Prop :=
  Forall (λ u, 0 < u ≤ 0xff ∧ u ≠ eos) s.

(** What [readASCII] stopped at: [txt] is the run of bytes at [offset],
    none of them null or the terminator, and it ends at [maxlen], at a
    null byte or at the terminator. *)
Definition stopsAt (d : list Z) (offset maxlen : nat) (eos : Z) (txt : list Z)
  : Prop :=
  (length txt ≤ maxlen)%nat
  ∧ (∀ j : nat, (j < length txt)%nat → d !! (offset + j)%nat = txt !! j)
  ∧ Forall (λ c, c ≠ 0 ∧ c ≠ eos) txt
  ∧ (length txt = maxlen
     ∨ d !! (offset + length txt)%nat = Some 0
     ∨ d !! (offset + length txt)%nat = Some eos).

(** The byte [writeASCII] stores at position [i] of the field. *)
Definition asciiAt (txt : list Z) (eos : Z) (i : nat) : Z :=
  match txt !! i with Some u => uint8_t (toLatin1 u) | None => uint8_t eos end.

(** The two hashes of a table mirror each other. *)
Definition mirrored (t : Table) : Prop :=
  ∀ (i : Z) (e : ConfigObject), objects t !! i = Some e ↔ indices t !! e = Some i.

(** Neither the class [m] nor any of its ancestors has a table. *)
Definition noTable (ctx : Context) (m : QMetaObject) : Prop :=
  ∀ cat, ¬ nearestTable ctx m cat.

(** A class hierarchy to run the registry on: the ten registered
    classes, two kinds of channel below [Channel], a digital channel at
    address 1, an analog channel at address 2 and zones elsewhere. *)
Module Example.
Definition qObject : QMetaObject := RootClass "QObject".
Definition configObject : QMetaObject := SubClass "ConfigObject" qObject.
Definition positioningSystem : QMetaObject :=
  SubClass "PositioningSystem" configObject.
Definition classes : StaticMetaObjects := {|
  RadioID := SubClass "RadioID" configObject;
  DigitalContact := SubClass "DigitalContact" configObject;
  DTMFContact := SubClass "DTMFContact" configObject;
  RXGroupList := SubClass "RXGroupList" configObject;
  Channel := SubClass "Channel" configObject;
  Zone := SubClass "Zone" configObject;
  ScanList := SubClass "ScanList" configObject;
  GPSSystem := SubClass "GPSSystem" positioningSystem;
  APRSSystem := SubClass "APRSSystem" positioningSystem;
  RoamingZone := SubClass "RoamingZone" configObject
|}.
Definition digitalChannel : QMetaObject :=
  SubClass "DigitalChannel" (Channel classes).
Definition analogChannel : QMetaObject :=
  SubClass "AnalogChannel" (Channel classes).
Definition dynamicType (o : ConfigObject) : QMetaObject :=
  match o with
  | 1%positive => digitalChannel
  | 2%positive => analogChannel
  | _ => Zone classes
  end.
(** The constructor's context with object 1 added at index 5. *)
Definition oneChannel : Context :=
  from_option snd (mkContext ∅)
    (add dynamicType (newContext classes) 1 5).
End Example.

(** A byte of two decimal digits, one per nibble. *)
Definition bcdByte (b : Z) : Prop := 0 ≤ b mod 16 ≤ 9 ∧ 0 ≤ b / 16 ≤ 9.

(** The write [r] of [w] bytes at [offset], when they lie inside the
    buffer, leaves two decimal digits in each of them. *)
Definition storesDigits (w : nat) (d : list Z) (offset : nat)
    (r : option (list Z)) : Prop :=
  (offset + w ≤ length d)%nat →
  ∃ d' bs, r = Some d' ∧ peeks d' offset w = Some bs ∧ Forall bcdByte bs.

(** The byte [writeASCII] stores for the code unit [u]. *)
Definition latin1Byte (u : Z) : Z := uint8_t (toLatin1 u).

(** The bytes of [bs] before the first null byte or terminator. *)
Fixpoint untilStop (eos : Z) (bs : list Z) : list Z :=
  match bs with
  | [] => []
  | c :: bs' =>
      if decide (c = 0) then []
      else if decide (c = eos) then []
      else c :: untilStop eos bs'
  end.

(** What [readUnicode] stopped at: [txt] is the run of code units at
    [offset], none of them the terminator, and it ends at [maxlen] or at
    the terminator. *)
Definition stopsAt16 (host : ByteOrder) (d : list Z) (offset maxlen : nat)
    (eos : Z) (txt : list Z) : Prop :=
  (length txt ≤ maxlen)%nat
  ∧ (∀ j : nat, (j < length txt)%nat →
       load host 2 d (offset + 2 * j) = txt !! j)
  ∧ Forall (λ c, c ≠ eos) txt
  ∧ (length txt = maxlen
     ∨ load host 2 d (offset + 2 * length txt) = Some eos).

(** A text [writeUnicode] and [readUnicode] carry unchanged: 16-bit code
    units, none of them the terminator. *)
Definition plainUnicode (eos : Z) (s : list Z) : Prop :=
  Forall (λ u, 0 ≤ u < 2 ^ 16 ∧ u ≠ eos) s.

(** The code unit [writeUnicode] stores at position [i] of the field. *)
Definition unicodeAt (txt : list Z) (eos : Z) (i : nat) : Z :=
  match txt !! i with Some u => uint16_t u | None => uint16_t eos end.

(** [m'] is the class [m] or descends from it. *)
Inductive descends : QMetaObject → QMetaObject → Prop :=
| descends_refl m : descends m m
| descends_sub name s m : descends s m → descends (SubClass name s) m.

(** Every table of the context is empty. *)
Definition allEmpty (ctx : Context) : Prop :=
  ∀ k t, _tables ctx !! k = Some t → t = mkTable ∅ ∅.

(** The ten classes of the constructor, as a list. *)
Definition staticClasses (cls : StaticMetaObjects) : list QMetaObject :=
  [ RadioID cls; DigitalContact cls; DTMFContact cls; RXGroupList cls;
    Channel cls; Zone cls; ScanList cls; GPSSystem cls; APRSSystem cls;
    RoamingZone cls ].

Section Sessions.
Variable metaObject : ConfigObject → QMetaObject.

(** [addsTo ctx ctx']: a run of [add] calls, each with a [uint] index,
    leads from [ctx] to [ctx']. *)
Inductive addsTo : Context → Context → Prop :=
| addsTo_refl ctx : addsTo ctx ctx
| addsTo_step ctx o idx r ctx1 ctx2 :
    0 ≤ idx < 2 ^ 32 → add metaObject ctx o idx = Some (r, ctx1) →
    addsTo ctx1 ctx2 → addsTo ctx ctx2.
End Sessions.

Section Consistency.
Variable metaObject : ConfigObject → QMetaObject.

(** Every table is mirrored, and each entity stored in it sits at a
    [uint] index of the table its own class resolves to. *)
Definition consistent (ctx : Context) : Prop :=
  ∀ k t, _tables ctx !! k = Some t →
    mirrored t
    ∧ ∀ i e, objects t !! i = Some e →
        0 ≤ i < 2 ^ 32 ∧ getTable ctx (metaObject e) = Some k.
End Consistency.

(** The context of [Example.oneChannel] with object 2 added at index 6. *)
Definition twoChannels : Context :=
  from_option snd (mkContext ∅)
    (add Example.dynamicType Example.oneChannel 2 6).

(** * Properties of the field accessor *)

(** ** Raw memory *)

Lemma poke_Some d p v :
  (p < length d)%nat → poke d p v = Some (<[p := uint8_t v]> d).
Proof. intros Hp. unfold poke. by rewrite decide_True. Qed.

Lemma poke_inv d p v d' :
  poke d p v = Some d' → (p < length d)%nat ∧ d' = <[p := uint8_t v]> d.
Proof. unfold poke. case_decide; naive_solver. Qed.

Lemma poke_modifies d p v d' : poke d p v = Some d' → modifies_only p 1 d d'.
Proof.
  intros [Hp ->]%poke_inv. split; [apply length_insert|].
  intros j Hj. apply list_lookup_insert_ne. lia.
Qed.

Lemma modifies_only_refl p w d : modifies_only p w d d.
Proof. by split. Qed.

Lemma modifies_only_trans p w d1 d2 d3 :
  modifies_only p w d1 d2 → modifies_only p w d2 d3 → modifies_only p w d1 d3.
Proof.
  intros [L1 F1] [L2 F2]. split; [congruence|].
  intros j Hj. rewrite F2, F1; auto.
Qed.

Lemma modifies_only_mono p w q u d d' :
  (p ≤ q)%nat → (q + u ≤ p + w)%nat →
  modifies_only q u d d' → modifies_only p w d d'.
Proof. intros ?? [L F]. split; [done|]. intros j Hj. apply F. lia. Qed.

Lemma peek_Some d p : (p < length d)%nat → ∃ b, peek d p = Some b.
Proof. intros Hp. unfold peek. by apply lookup_lt_is_Some_2. Qed.

Lemma shl_Some x bit : (bit < 32)%nat → shl x bit = Some (x ≪ Z.of_nat bit).
Proof. intros. unfold shl. by rewrite decide_True. Qed.

Lemma shr_Some x bit : (bit < 32)%nat → shr x bit = Some (x ≫ Z.of_nat bit).
Proof. intros. unfold shr. by rewrite decide_True. Qed.

Lemma pokes_inv d p bs d' :
  pokes d p bs = Some d' →
  (p + length bs ≤ length d)%nat ∧
  d' = take p d ++ bs ++ drop (p + length bs) d.
Proof. unfold pokes. case_decide; naive_solver. Qed.

Lemma pokes_Some d p bs :
  (p + length bs ≤ length d)%nat →
  pokes d p bs = Some (take p d ++ bs ++ drop (p + length bs) d).
Proof. intros. unfold pokes. by rewrite decide_True. Qed.

Lemma pokes_modifies d p bs d' :
  pokes d p bs = Some d' → modifies_only p (length bs) d d'.
Proof.
  intros [Hp ->]%pokes_inv. split.
  - rewrite !length_app, length_take, length_drop. lia.
  - intros j Hj. destruct (decide (j < p)%nat) as [Hlt|Hge].
    + rewrite lookup_app_l by (rewrite length_take; lia).
      apply lookup_take_lt. lia.
    + rewrite lookup_app_r by (rewrite length_take; lia).
      rewrite length_take, Nat.min_l by lia.
      rewrite lookup_app_r by lia.
      rewrite lookup_drop. f_equal. lia.
Qed.

Lemma peeks_pokes d p bs d' :
  pokes d p bs = Some d' → peeks d' p (length bs) = Some bs.
Proof.
  intros H. pose proof (pokes_modifies _ _ _ _ H) as [L _].
  apply pokes_inv in H as [Hp ->]. unfold peeks.
  rewrite decide_True by lia. f_equal.
  rewrite drop_app_length' by (rewrite length_take; lia).
  by rewrite take_app_length.
Qed.

(** ** Sub-byte fields *)

Ltac bits :=
  repeat first
    [ rewrite Z.land_spec | rewrite Z.lor_spec
    | rewrite Z.lnot_spec by lia
    | rewrite Z.shiftl_spec by lia
    | rewrite Z.shiftr_spec by lia
    | rewrite Z.testbit_mod_pow2 by lia
    | rewrite Z.testbit_ones by lia ].

Ltac case_cmp :=
  repeat match goal with
    | |- context [(?a <? ?b)] => destruct (Z.ltb_spec a b); try lia
    | |- context [(?a <=? ?b)] => destruct (Z.leb_spec a b); try lia
    end.

Ltac bitblast :=
  bits; case_cmp; simpl;
  rewrite ?Z.add_simpl_r, ?Bool.andb_false_r, ?Bool.andb_true_r,
    ?Bool.orb_false_r;
  try reflexivity.

Section SubByte.
Variables (n b : nat) (p v : Z).
Let mask := Z.ones (Z.of_nat n).
Let p1 := uint8_t (Z.land p (Z.lnot (mask ≪ Z.of_nat b))).
Let p2 := uint8_t (Z.lor p1 (Z.land (uint8_t v) mask ≪ Z.of_nat b)).


Lemma field_write_frame (k : Z) :
  0 ≤ k < 8 → k < Z.of_nat b ∨ Z.of_nat b + Z.of_nat n ≤ k →
  Z.testbit p2 k = Z.testbit p k.
Proof.
  intros Hk Hout. subst p2 p1 mask. unfold uint8_t. bitblast.
Qed.
End SubByte.

Lemma setField_spec (n : nat) d offset bit value :
  (offset < length d)%nat → (bit < 32)%nat →
  ∃ p, d !! offset = Some p ∧
    setField (Z.ones (Z.of_nat n)) d offset bit value =
    Some (<[offset :=
              uint8_t
                (Z.lor
                   (uint8_t
                      (Z.land p (Z.lnot (Z.ones (Z.of_nat n) ≪ Z.of_nat bit))))
                   (Z.land (uint8_t value) (Z.ones (Z.of_nat n))
                    ≪ Z.of_nat bit))]> d).
Proof.
  intros Ho Hb. destruct (peek_Some d offset Ho) as [p Hp].
  exists p. split; [done|]. unfold setField. rewrite Hp. simpl.
  rewrite !shl_Some by done. simpl.
  rewrite poke_Some by done. simpl.
  unfold peek. rewrite list_lookup_insert_eq by done. simpl.
  rewrite poke_Some by (by rewrite length_insert).
  by rewrite list_insert_insert_eq.
Qed.




(** ** Byte order *)

Lemma length_le_bytes n v : length (le_bytes n v) = n.
Proof. revert v. induction n as [|n IH]; intros v; simpl; by rewrite ?IH. Qed.

Lemma le_bytes_is_byte n v : Forall is_byte (le_bytes n v).
Proof.
  revert v. induction n as [|n IH]; intros v; simpl; constructor; [|apply IH].
  unfold is_byte. apply Z.mod_pos_bound. lia.
Qed.

Lemma le_value_le_bytes n v : le_value (le_bytes n v) = v mod 256 ^ Z.of_nat n.
Proof.
  revert v. induction n as [|n IH]; intros v.
  - simpl. by rewrite Z.mod_1_r.
  - rewrite Nat2Z.inj_succ, Z.pow_succ_r by lia. simpl. rewrite IH.
    rewrite Z.rem_mul_r by lia. ring.
Qed.

Lemma le_bytes_le_value bs :
  Forall is_byte bs → le_bytes (length bs) (le_value bs) = bs.
Proof.
  induction 1 as [|b bs Hb Hbs IH]; simpl; [done|].
  unfold is_byte in Hb. f_equal.
  - rewrite (Z.mul_comm 256), Z.mod_add by lia. by apply Z.mod_small.
  - rewrite (Z.mul_comm 256), Z.div_add by lia.
    rewrite Z.div_small by lia. simpl. exact IH.
Qed.

(** What is in memory after a store, and what a load makes of it, is
    the same on both hosts. *)
Lemma host_bytes_to_be host n v :
  host_bytes host n (qToBigEndian host n v) = rev (le_bytes n v).
Proof.
  destruct host; simpl; [|done]. unfold qbswap.
  rewrite <- (length_le_bytes n v) at 1. rewrite <- length_rev.
  apply le_bytes_le_value, Forall_rev, le_bytes_is_byte.
Qed.

Lemma host_bytes_to_le host n v :
  host_bytes host n (qToLittleEndian host n v) = le_bytes n v.
Proof.
  destruct host; simpl; [done|]. unfold qbswap. f_equal.
  rewrite <- (rev_involutive (le_bytes n v)) at 2. f_equal.
  rewrite <- (length_le_bytes n v) at 1. rewrite <- length_rev.
  apply le_bytes_le_value, Forall_rev, le_bytes_is_byte.
Qed.

Lemma host_value_from_be host bs :
  Forall is_byte bs →
  qFromBigEndian host (length bs) (host_value host bs) = le_value (rev bs).
Proof.
  intros H. destruct host; simpl; [|done]. unfold qbswap.
  by rewrite le_bytes_le_value.
Qed.

Lemma host_value_from_le host bs :
  Forall is_byte bs →
  qFromLittleEndian host (length bs) (host_value host bs) = le_value bs.
Proof.
  intros H. destruct host; simpl; [done|]. unfold qbswap.
  rewrite <- length_rev, le_bytes_le_value by by apply Forall_rev.
  by rewrite rev_involutive.
Qed.

Lemma load_store host n d p v d' :
  store host n d p v = Some d' →
  peeks d' p n = Some (host_bytes host n v).
Proof.
  unfold store. intros H%peeks_pokes.
  assert (length (host_bytes host n v) = n) as Hl.
  { destruct host; simpl; by rewrite ?length_rev, length_le_bytes. }
  by rewrite Hl in H.
Qed.

Lemma store_Some host n d p v :
  (p + n ≤ length d)%nat → ∃ d', store host n d p v = Some d'.
Proof.
  intros Hp. unfold store. eexists. apply pokes_Some.
  destruct host; simpl; rewrite ?length_rev, length_le_bytes; lia.
Qed.

Lemma store_modifies host n d p v d' :
  store host n d p v = Some d' → modifies_only p n d d'.
Proof.
  unfold store. intros H%pokes_modifies.
  replace (length (host_bytes host n v)) with n in H; [done|].
  destruct host; simpl; by rewrite ?length_rev, length_le_bytes.
Qed.

(** ** Binary-coded decimals *)

Lemma nibble x (n : Z) : 0 ≤ n → Z.land (x ≫ n) 0xf = (x / 2 ^ n) mod 16.
Proof.
  intros. rewrite Z.shiftr_div_pow2 by done.
  change 0xf with (Z.ones 4). by rewrite Z.land_ones.
Qed.

Lemma nibble0 x : Z.land x 0xf = (x / 1) mod 16.
Proof. rewrite Z.div_1_r. change 0xf with (Z.ones 4). by rewrite Z.land_ones. Qed.

Lemma horner_div lo hi M :
  0 ≤ lo < 16 → 0 < M → (lo + 16 * hi) / (16 * M) = hi / M.
Proof.
  intros Hlo HM. rewrite <- Z.div_div by lia. f_equal.
  rewrite Z.mul_comm, Z.div_add by lia. rewrite Z.div_small; lia.
Qed.

Lemma horner_mod lo hi : 0 ≤ lo < 16 → ((lo + 16 * hi) / 1) mod 16 = lo.
Proof.
  intros Hlo. rewrite Z.div_1_r, Z.mul_comm, Z.mod_add by lia.
  by apply Z.mod_small.
Qed.

Lemma mod_split v p : 0 < p → v mod (p * 10) = (v / p) mod 10 * p + v mod p.
Proof. intros Hp. rewrite Z.rem_mul_r by lia. ring. Qed.

Ltac digit_bounds :=
  repeat match goal with
    | |- context [(?x / ?y) mod 10] =>
        let a := fresh "a" in
        let Ha := fresh "Ha" in
        pose proof (Z.mod_pos_bound (x / y) 10 eq_refl) as Ha;
        set (a := (x / y) mod 10) in *; clearbody a
    end.

Ltac drop_casts :=
  repeat match goal with
    | |- context [?x mod 2 ^ ?n] =>
        rewrite (Z.mod_small x (2 ^ n))
          by (rewrite ?Z.shiftl_mul_pow2 by lia; lia)
    end.

Lemma unpack_pack_BCD4 v : unpackBCD4 (packBCD4 v) = v mod 10000.
Proof.
  change 10000 with (10 * 10 * 10 * 10).
  rewrite (mod_split v (10 * 10 * 10)), (mod_split v (10 * 10)),
    (mod_split v 10) by lia.
  replace (v mod 10) with ((v / 1) mod 10) by (by rewrite Z.div_1_r).
  unfold unpackBCD4, packBCD4, uint32_t.
  change (10 * 10 * 10) with 1000; change (10 * 10) with 100.
  digit_bounds.
  drop_casts.
  rewrite !Z.shiftl_mul_pow2 by lia.
  replace (a * 2 ^ 12 + a0 * 2 ^ 8 + a1 * 2 ^ 4 + a2)
    with (a2 + 16 * (a1 + 16 * (a0 + 16 * (a + 16 * 0)))) by lia.
  rewrite nibble0, !nibble by lia.
  change (2 ^ 4) with (16 * 1); change (2 ^ 8) with (16 * (16 * 1));
  change (2 ^ 12) with (16 * (16 * (16 * 1))).
  rewrite !horner_div by lia. rewrite !horner_mod by lia. lia.
Qed.

Lemma unpack_pack_BCD8 v : unpackBCD8 (packBCD8 v) = v mod 100000000.
Proof.
  change 100000000 with (10 * 10 * 10 * 10 * 10 * 10 * 10 * 10).
  rewrite (mod_split v (10 * 10 * 10 * 10 * 10 * 10 * 10)),
    (mod_split v (10 * 10 * 10 * 10 * 10 * 10)),
    (mod_split v (10 * 10 * 10 * 10 * 10)), (mod_split v (10 * 10 * 10 * 10)),
    (mod_split v (10 * 10 * 10)), (mod_split v (10 * 10)), (mod_split v 10)
    by lia.
  replace (v mod 10) with ((v / 1) mod 10) by (by rewrite Z.div_1_r).
  unfold unpackBCD8, packBCD8, uint32_t.
  change (10 * 10 * 10 * 10 * 10 * 10 * 10) with 10000000;
  change (10 * 10 * 10 * 10 * 10 * 10) with 1000000;
  change (10 * 10 * 10 * 10 * 10) with 100000;
  change (10 * 10 * 10 * 10) with 10000;
  change (10 * 10 * 10) with 1000; change (10 * 10) with 100.
  digit_bounds.
  drop_casts.
  rewrite !Z.shiftl_mul_pow2 by lia.
  match goal with |- context [Z.land ?P 0xf] =>
    replace P
      with (a6 + 16 * (a5 + 16 * (a4 + 16 * (a3 + 16 * (a2 + 16 *
              (a1 + 16 * (a0 + 16 * (a + 16 * 0)))))))) by lia
  end.
  rewrite nibble0, !nibble by lia.
  change (2 ^ 4) with (16 * 1); change (2 ^ 8) with (16 * (16 * 1));
  change (2 ^ 12) with (16 * (16 * (16 * 1)));
  change (2 ^ 16) with (16 * (16 * (16 * (16 * 1))));
  change (2 ^ 20) with (16 * (16 * (16 * (16 * (16 * 1)))));
  change (2 ^ 24) with (16 * (16 * (16 * (16 * (16 * (16 * 1))))));
  change (2 ^ 28) with (16 * (16 * (16 * (16 * (16 * (16 * (16 * 1))))))).
  rewrite !horner_div by lia. rewrite !horner_mod by lia. lia.
Qed.

Lemma packBCD4_bound v : 0 ≤ packBCD4 v < 2 ^ 16.
Proof.
  unfold packBCD4, uint32_t. digit_bounds.
  drop_casts.
  rewrite !Z.shiftl_mul_pow2 by lia. lia.
Qed.

Lemma packBCD8_bound v : 0 ≤ packBCD8 v < 2 ^ 32.
Proof. unfold packBCD8, uint32_t. apply Z.mod_pos_bound. lia. Qed.

(** ** Whole integers *)


Lemma peeks_inv d p n bs :
  peeks d p n = Some bs →
  (p + n ≤ length d)%nat ∧ length bs = n ∧ bs = take n (drop p d).
Proof.
  unfold peeks. case_decide; [|done]. intros [= <-].
  split; [done|]. split; [|done]. rewrite length_take, length_drop. lia.
Qed.

Lemma peeks_intro d p bs :
  (p + length bs ≤ length d)%nat →
  (∀ i : nat, (i < length bs)%nat → d !! (p + i)%nat = bs !! i) →
  peeks d p (length bs) = Some bs.
Proof.
  intros Hp Hi. unfold peeks. rewrite decide_True by done. f_equal.
  apply list_eq. intros i. destruct (decide (i < length bs)%nat).
  - rewrite lookup_take_lt, lookup_drop by done. by apply Hi.
  - rewrite lookup_take_ge by lia. symmetry. apply lookup_ge_None. lia.
Qed.

Lemma peeks_lookup d p n bs (i : nat) :
  peeks d p n = Some bs → (i < n)%nat → d !! (p + i)%nat = bs !! i.
Proof.
  intros (_ & _ & ->)%peeks_inv Hi. by rewrite lookup_take_lt, lookup_drop.
Qed.

Section WideReads.
Variables (host : ByteOrder) (d : list Z) (p : nat) (bs : list Z).
Hypothesis Hbs : Forall is_byte bs.

Lemma getUInt16_be_peeks :
  peeks d p 2 = Some bs → getUInt16_be host d p = Some (le_value (rev bs)).
Proof.
  intros H. unfold getUInt16_be, load. rewrite H. simpl. f_equal.
  apply peeks_inv in H as (_ & <- & _). by apply host_value_from_be.
Qed.
Lemma getUInt16_le_peeks :
  peeks d p 2 = Some bs → getUInt16_le host d p = Some (le_value bs).
Proof.
  intros H. unfold getUInt16_le, load. rewrite H. simpl. f_equal.
  apply peeks_inv in H as (_ & <- & _). by apply host_value_from_le.
Qed.
Lemma getUInt32_be_peeks :
  peeks d p 4 = Some bs → getUInt32_be host d p = Some (le_value (rev bs)).
Proof.
  intros H. unfold getUInt32_be, load. rewrite H. simpl. f_equal.
  apply peeks_inv in H as (_ & <- & _). by apply host_value_from_be.
Qed.
Lemma getUInt32_le_peeks :
  peeks d p 4 = Some bs → getUInt32_le host d p = Some (le_value bs).
Proof.
  intros H. unfold getUInt32_le, load. rewrite H. simpl. f_equal.
  apply peeks_inv in H as (_ & <- & _). by apply host_value_from_le.
Qed.
End WideReads.

Lemma le_bytes_mod n v : le_bytes n (v mod 256 ^ Z.of_nat n) = le_bytes n v.
Proof.
  rewrite <- le_value_le_bytes. rewrite <- (length_le_bytes n v) at 1.
  apply le_bytes_le_value, le_bytes_is_byte.
Qed.

Lemma store_bytes host n d p v :
  (p + n ≤ length d)%nat →
  ∃ d', store host n d p v = Some d'
        ∧ peeks d' p n = Some (host_bytes host n v) ∧ modifies_only p n d d'.
Proof.
  intros Hp. destruct (store_Some host n d p v Hp) as [d' Hd'].
  exists d'. eauto using load_store, store_modifies.
Qed.

Section WideWrites.
Variables (host : ByteOrder) (d : list Z) (p : nat) (v : Z).

Lemma setUInt16_be_bytes :
  (p + 2 ≤ length d)%nat →
  ∃ d', setUInt16_be host d p v = Some d'
        ∧ peeks d' p 2 = Some (rev (le_bytes 2 v)) ∧ modifies_only p 2 d d'.
Proof.
  intros Hp. unfold setUInt16_be.
  destruct (store_bytes host 2 d p (qToBigEndian host 2 (uint16_t v)) Hp)
    as (d' & ? & Hd' & ?).
  exists d'. rewrite host_bytes_to_be in Hd'.
  unfold uint16_t in Hd'. by rewrite (le_bytes_mod 2) in Hd'.
Qed.
Lemma setUInt16_le_bytes :
  (p + 2 ≤ length d)%nat →
  ∃ d', setUInt16_le host d p v = Some d'
        ∧ peeks d' p 2 = Some (le_bytes 2 v) ∧ modifies_only p 2 d d'.
Proof.
  intros Hp. unfold setUInt16_le.
  destruct (store_bytes host 2 d p (qToLittleEndian host 2 (uint16_t v)) Hp)
    as (d' & ? & Hd' & ?).
  exists d'. rewrite host_bytes_to_le in Hd'.
  unfold uint16_t in Hd'. by rewrite (le_bytes_mod 2) in Hd'.
Qed.
Lemma setUInt32_be_bytes :
  (p + 4 ≤ length d)%nat →
  ∃ d', setUInt32_be host d p v = Some d'
        ∧ peeks d' p 4 = Some (rev (le_bytes 4 v)) ∧ modifies_only p 4 d d'.
Proof.
  intros Hp. unfold setUInt32_be.
  destruct (store_bytes host 4 d p (qToBigEndian host 4 (uint32_t v)) Hp)
    as (d' & ? & Hd' & ?).
  exists d'. rewrite host_bytes_to_be in Hd'.
  unfold uint32_t in Hd'. by rewrite (le_bytes_mod 4) in Hd'.
Qed.
Lemma setUInt32_le_bytes :
  (p + 4 ≤ length d)%nat →
  ∃ d', setUInt32_le host d p v = Some d'
        ∧ peeks d' p 4 = Some (le_bytes 4 v) ∧ modifies_only p 4 d d'.
Proof.
  intros Hp. unfold setUInt32_le.
  destruct (store_bytes host 4 d p (qToLittleEndian host 4 (uint32_t v)) Hp)
    as (d' & ? & Hd' & ?).
  exists d'. rewrite host_bytes_to_le in Hd'.
  unfold uint32_t in Hd'. by rewrite (le_bytes_mod 4) in Hd'.
Qed.
End WideWrites.

(** The three single-byte stores of the 24-bit setters. *)
Lemma poke3 d p b0 b1 b2 :
  (p + 3 ≤ length d)%nat →
  ∃ d', (d0 ← poke d p b0; d1 ← poke d0 (p + 1) b1; poke d1 (p + 2) b2) = Some d'
        ∧ peeks d' p 3 = Some [uint8_t b0; uint8_t b1; uint8_t b2]
        ∧ modifies_only p 3 d d'.
Proof.
  intros Hp. rewrite poke_Some by lia. simpl.
  rewrite poke_Some by (rewrite length_insert; lia). simpl.
  rewrite poke_Some by (rewrite !length_insert; lia).
  eexists. split; [done|]. split.
  - apply (peeks_intro _ _ [_; _; _]); [rewrite !length_insert; simpl; lia|].
    intros [|[|[|i]]] Hi; simpl in Hi; try lia; simpl.
    + rewrite Nat.add_0_r, !list_lookup_insert_ne by lia.
      apply list_lookup_insert_eq. lia.
    + rewrite list_lookup_insert_ne by lia.
      apply list_lookup_insert_eq. rewrite length_insert. lia.
    + apply list_lookup_insert_eq. rewrite !length_insert. lia.
  - split; [by rewrite !length_insert|].
    intros j Hj. by rewrite !list_lookup_insert_ne by lia.
Qed.

Lemma byte_of_shift x (n : Z) :
  0 ≤ n → uint8_t (Z.land (x ≫ n) 0xff) = (x / 2 ^ n) mod 256.
Proof.
  intros Hn. rewrite Z.shiftr_div_pow2 by done.
  change 0xff with (Z.ones 8). rewrite Z.land_ones by lia.
  unfold uint8_t. by rewrite Z.mod_mod by lia.
Qed.

Lemma le_bytes_4 x :
  le_bytes 4 x
  = [x mod 256; x / 2 ^ 8 mod 256; x / 2 ^ 16 mod 256; x / 2 ^ 24 mod 256].
Proof.
  simpl. rewrite !Z.div_div by lia. done.
Qed.

Section WideRoundTrips.
Variables (host : ByteOrder) (d : list Z) (p : nat) (v : Z).

Lemma getUInt16_be_setUInt16_be :
  (p + 2 ≤ length d)%nat →
  ∃ d', setUInt16_be host d p v = Some d'
        ∧ getUInt16_be host d' p = Some (v mod 2 ^ 16).
Proof.
  intros Hp. destruct (setUInt16_be_bytes host d p v Hp) as (d' & Hs & Hb & _).
  exists d'. split; [done|].
  rewrite (getUInt16_be_peeks host d' p (rev (le_bytes 2 v)));
    [|apply Forall_rev, le_bytes_is_byte|done].
  by rewrite rev_involutive, le_value_le_bytes.
Qed.
Lemma getUInt16_le_setUInt16_le :
  (p + 2 ≤ length d)%nat →
  ∃ d', setUInt16_le host d p v = Some d'
        ∧ getUInt16_le host d' p = Some (v mod 2 ^ 16).
Proof.
  intros Hp. destruct (setUInt16_le_bytes host d p v Hp) as (d' & Hs & Hb & _).
  exists d'. split; [done|].
  rewrite (getUInt16_le_peeks host d' p (le_bytes 2 v));
    [|apply le_bytes_is_byte|done].
  by rewrite le_value_le_bytes.
Qed.
Lemma getUInt32_be_setUInt32_be :
  (p + 4 ≤ length d)%nat →
  ∃ d', setUInt32_be host d p v = Some d'
        ∧ getUInt32_be host d' p = Some (v mod 2 ^ 32).
Proof.
  intros Hp. destruct (setUInt32_be_bytes host d p v Hp) as (d' & Hs & Hb & _).
  exists d'. split; [done|].
  rewrite (getUInt32_be_peeks host d' p (rev (le_bytes 4 v)));
    [|apply Forall_rev, le_bytes_is_byte|done].
  by rewrite rev_involutive, le_value_le_bytes.
Qed.
Lemma getUInt32_le_setUInt32_le :
  (p + 4 ≤ length d)%nat →
  ∃ d', setUInt32_le host d p v = Some d'
        ∧ getUInt32_le host d' p = Some (v mod 2 ^ 32).
Proof.
  intros Hp. destruct (setUInt32_le_bytes host d p v Hp) as (d' & Hs & Hb & _).
  exists d'. split; [done|].
  rewrite (getUInt32_le_peeks host d' p (le_bytes 4 v));
    [|apply le_bytes_is_byte|done].
  by rewrite le_value_le_bytes.
Qed.
End WideRoundTrips.


Lemma three_bytes x :
  x mod 2 ^ 24
  = x mod 256 + (x / 2 ^ 8 mod 256) * 2 ^ 8 + (x / 2 ^ 16 mod 256) * 2 ^ 16.
Proof.
  change (2 ^ 24) with (256 * (256 * 256)). change (2 ^ 16) with (256 * 256).
  change (2 ^ 8) with 256.
  rewrite !Z.rem_mul_r by lia. rewrite <- !Z.div_div by lia. ring.
Qed.

(** Claim C6.  On either host, for a 32-bit [x] and four bytes inside
    the buffer: after [setUInt32_be], [getUInt32_be] returns [x] and
    [getUInt32_le] returns [x] with its bytes reversed; the bytes in
    memory are those of [x], most significant first for every [_be]
    setter and least significant first for every [_le] setter, of 32, 24
    and 16 bits alike, and each getter reads back what its setter wrote. *)
Theorem setUInt32_be_getUInt32 host (d : list Z) (offset : nat) (x : Z) :
  (offset + 4 ≤ length d)%nat → 0 ≤ x < 2 ^ 32 →
  (∃ d', setUInt32_be host d offset x = Some d'
     ∧ getUInt32_be host d' offset = Some x
     ∧ getUInt32_le host d' offset = Some (byteReversed32 x)
     ∧ peeks d' offset 4
       = Some [x / 2 ^ 24 mod 256; x / 2 ^ 16 mod 256; x / 2 ^ 8 mod 256;
               x mod 256])
  ∧ (∃ d', setUInt32_le host d offset x = Some d'
     ∧ getUInt32_le host d' offset = Some x
     ∧ peeks d' offset 4
       = Some [x mod 256; x / 2 ^ 8 mod 256; x / 2 ^ 16 mod 256;
               x / 2 ^ 24 mod 256])
  ∧ (∃ d', setUInt24_be d offset x = Some d'
     ∧ getUInt24_be d' offset = Some (x mod 2 ^ 24)
     ∧ peeks d' offset 3
       = Some [x / 2 ^ 16 mod 256; x / 2 ^ 8 mod 256; x mod 256])
  ∧ (∃ d', setUInt24_le d offset x = Some d'
     ∧ getUInt24_le d' offset = Some (x mod 2 ^ 24)
     ∧ peeks d' offset 3
       = Some [x mod 256; x / 2 ^ 8 mod 256; x / 2 ^ 16 mod 256])
  ∧ (∃ d', setUInt16_be host d offset x = Some d'
     ∧ getUInt16_be host d' offset = Some (x mod 2 ^ 16)
     ∧ peeks d' offset 2 = Some [x / 2 ^ 8 mod 256; x mod 256])
  ∧ (∃ d', setUInt16_le host d offset x = Some d'
     ∧ getUInt16_le host d' offset = Some (x mod 2 ^ 16)
     ∧ peeks d' offset 2 = Some [x mod 256; x / 2 ^ 8 mod 256]).
Proof.
  intros Hp Hx.
  pose proof (le_bytes_is_byte 4 x) as Hb4.
  pose proof (le_bytes_is_byte 2 x) as Hb2.
  assert (Forall is_byte (rev (le_bytes 4 x))) as Hr4 by by apply Forall_rev.
  assert (Forall is_byte (rev (le_bytes 2 x))) as Hr2 by by apply Forall_rev.
  pose proof (le_value_le_bytes 4 x) as Hv4.
  pose proof (le_value_le_bytes 2 x) as Hv2.
  change (256 ^ Z.of_nat 4) with (2 ^ 32) in Hv4.
  change (256 ^ Z.of_nat 2) with (2 ^ 16) in Hv2.
  rewrite Z.mod_small in Hv4 by done.
  pose proof (three_bytes x) as H3.
  split; [|split; [|split; [|split; [|split]]]].
  - destruct (setUInt32_be_bytes host d offset x Hp) as (d' & Hs & Hb & _).
    exists d'. split; [done|]. split; [|split].
    + rewrite (getUInt32_be_peeks host d' offset _ Hr4 Hb).
      by rewrite rev_involutive, Hv4.
    + rewrite (getUInt32_le_peeks host d' offset _ Hr4 Hb).
      rewrite le_bytes_4. unfold byteReversed32. simpl. f_equal. lia.
    + by rewrite Hb, le_bytes_4.
  - destruct (setUInt32_le_bytes host d offset x Hp) as (d' & Hs & Hb & _).
    exists d'. split; [done|]. split.
    + rewrite (getUInt32_le_peeks host d' offset _ Hb4 Hb). by rewrite Hv4.
    + by rewrite Hb, le_bytes_4.
  - destruct (poke3 d offset (Z.land (x ≫ 16) 0xff) (Z.land (x ≫ 8) 0xff)
                (Z.land (x ≫ 0) 0xff)) as (d' & Hs & Hb & _); [lia|].
    rewrite !byte_of_shift in Hb by lia. change (2 ^ 0) with 1 in Hb.
    rewrite Z.div_1_r in Hb.
    exists d'. split; [exact Hs|]. split; [|done].
    unfold getUInt24_be, peek. rewrite <- (Nat.add_0_r offset) at 1.
    rewrite !(peeks_lookup _ _ _ _ _ Hb) by lia. simpl. f_equal.
    unfold uint32_t. rewrite !Z.shiftl_mul_pow2 by lia.
    rewrite <- H3. rewrite Z.mod_small; [done|].
    pose proof (Z.mod_pos_bound x (2 ^ 24)). lia.
  - destruct (poke3 d offset (Z.land (x ≫ 0) 0xff) (Z.land (x ≫ 8) 0xff)
                (Z.land (x ≫ 16) 0xff)) as (d' & Hs & Hb & _); [lia|].
    rewrite !byte_of_shift in Hb by lia. change (2 ^ 0) with 1 in Hb.
    rewrite Z.div_1_r in Hb.
    exists d'. split; [exact Hs|]. split; [|done].
    unfold getUInt24_le, peek. rewrite <- (Nat.add_0_r offset) at 1.
    rewrite !(peeks_lookup _ _ _ _ _ Hb) by lia. simpl. f_equal.
    unfold uint32_t. rewrite !Z.shiftl_mul_pow2 by lia.
    rewrite <- H3. rewrite Z.mod_small; [done|].
    pose proof (Z.mod_pos_bound x (2 ^ 24)). lia.
  - destruct (setUInt16_be_bytes host d offset x) as (d' & Hs & Hb & _); [lia|].
    exists d'. split; [done|]. split.
    + rewrite (getUInt16_be_peeks host d' offset _ Hr2 Hb).
      by rewrite rev_involutive, Hv2.
    + by rewrite Hb.
  - destruct (setUInt16_le_bytes host d offset x) as (d' & Hs & Hb & _); [lia|].
    exists d'. split; [done|]. split.
    + rewrite (getUInt16_le_peeks host d' offset _ Hb2 Hb). by rewrite Hv2.
    + by rewrite Hb.
Qed.

Lemma setUInt32_be_getUInt32_witness :
  ∃ d', setUInt32_be LittleEndian [0; 0; 0; 0; 0] 1 0x12345678 = Some d'
        ∧ getUInt32_be LittleEndian d' 1 = Some 0x12345678
        ∧ getUInt32_le LittleEndian d' 1 = Some 0x78563412.
Proof.
  destruct (setUInt32_be_getUInt32 LittleEndian [0; 0; 0; 0; 0] 1%nat
              0x12345678) as ((d' & Hs & Hb & Hl & _) & _);
    [simpl; lia|lia|].
  exists d'. split; [exact Hs|]. split; [exact Hb|exact Hl].
Defined.

Lemma unpack_pack_BCD2 v :
  0 ≤ v < 2 ^ 8 →
  let a := uint8_t ((v / 10) mod 10) in
  let b := uint8_t ((v / 1) mod 10) in
  let val := uint8_t ((a ≪ 4) + b) in
  uint8_t (Z.land val 0xf + Z.land (val ≫ 4) 0xf * 10) = v mod 100.
Proof.
  intros Hv a b val. subst a b val. unfold uint8_t.
  change 100 with (10 * 10). rewrite (mod_split v 10) by lia.
  replace (v mod 10) with ((v / 1) mod 10) by (by rewrite Z.div_1_r).
  digit_bounds.
  drop_casts.
  rewrite Z.shiftl_mul_pow2 by lia.
  replace (a * 2 ^ 4 + a0) with (a0 + 16 * (a + 16 * 0)) by lia.
  rewrite nibble0, nibble by lia. change (2 ^ 4) with (16 * 1).
  rewrite !horner_div by lia. rewrite !horner_mod by lia.
  rewrite Z.mod_small by lia. lia.
Qed.

(** Claim C5.  For 2, 4 and 8 digits, big and little endian, on either
    host: writing a value of the setter's argument type and reading it
    back gives the value modulo [10 ^ D], which is the value itself when
    it is below [10 ^ D]. *)
Theorem setBCD_getBCD host :
  bcdRoundTrip 1 2 setBCD2 getBCD2
  ∧ bcdRoundTrip 2 4 (setBCD4_be host) (getBCD4_be host)
  ∧ bcdRoundTrip 2 4 (setBCD4_le host) (getBCD4_le host)
  ∧ bcdRoundTrip 4 8 (setBCD8_be host) (getBCD8_be host)
  ∧ bcdRoundTrip 4 8 (setBCD8_le host) (getBCD8_le host).
Proof.
  assert (∀ (D v : Z) (r : option Z),
            0 ≤ v → r = Some (v mod 10 ^ D) →
            r = Some (v mod 10 ^ D) ∧ (v < 10 ^ D → r = Some v)) as Hfin.
  { intros D v r Hv ->. split; [done|]. intros Hlt. by rewrite Z.mod_small. }
  split; [|split; [|split; [|split]]]; intros d offset v Hp Hv;
    [ change (2 ^ (8 * Z.of_nat 1)) with (2 ^ 8) in Hv
    | change (2 ^ (8 * Z.of_nat 2)) with (2 ^ 16) in Hv ..
    | change (2 ^ (8 * Z.of_nat 4)) with (2 ^ 32) in Hv
    | change (2 ^ (8 * Z.of_nat 4)) with (2 ^ 32) in Hv ].
  - unfold setBCD2, setUInt8, getBCD2, getUInt8.
    rewrite poke_Some by lia. eexists. split; [done|]. apply Hfin; [lia|].
    unfold peek. rewrite list_lookup_insert_eq by lia. simpl. f_equal.
    replace (uint8_t v) with v by (symmetry; by apply Z.mod_small).
    by apply unpack_pack_BCD2.
  - destruct (getUInt16_be_setUInt16_be host d offset
                (packBCD4 (uint16_t v)) Hp) as (d' & Hs & Hg).
    exists d'. split; [exact Hs|]. apply Hfin; [lia|].
    unfold getBCD4_be. rewrite Hg. simpl. f_equal.
    rewrite (Z.mod_small (packBCD4 _)) by apply packBCD4_bound.
    rewrite unpack_pack_BCD4. unfold uint16_t.
    rewrite (Z.mod_small v) by done. apply Z.mod_small.
    change (10 ^ 4) with 10000.
    pose proof (Z.mod_pos_bound v 10000 eq_refl). lia.
  - destruct (getUInt16_le_setUInt16_le host d offset
                (packBCD4 (uint16_t v)) Hp) as (d' & Hs & Hg).
    exists d'. split; [exact Hs|]. apply Hfin; [lia|].
    unfold getBCD4_le. rewrite Hg. simpl. f_equal.
    rewrite (Z.mod_small (packBCD4 _)) by apply packBCD4_bound.
    rewrite unpack_pack_BCD4. unfold uint16_t.
    rewrite (Z.mod_small v) by done. apply Z.mod_small.
    change (10 ^ 4) with 10000.
    pose proof (Z.mod_pos_bound v 10000 eq_refl). lia.
  - destruct (getUInt32_be_setUInt32_be host d offset
                (packBCD8 (uint32_t v)) Hp) as (d' & Hs & Hg).
    exists d'. split; [exact Hs|]. apply Hfin; [lia|].
    unfold getBCD8_be. rewrite Hg. simpl. f_equal.
    rewrite (Z.mod_small (packBCD8 _)) by apply packBCD8_bound.
    rewrite unpack_pack_BCD8. unfold uint32_t.
    rewrite (Z.mod_small v) by done. apply Z.mod_small.
    change (10 ^ 8) with 100000000.
    pose proof (Z.mod_pos_bound v 100000000 eq_refl). lia.
  - destruct (getUInt32_le_setUInt32_le host d offset
                (packBCD8 (uint32_t v)) Hp) as (d' & Hs & Hg).
    exists d'. split; [exact Hs|]. apply Hfin; [lia|].
    unfold getBCD8_le. rewrite Hg. simpl. f_equal.
    rewrite (Z.mod_small (packBCD8 _)) by apply packBCD8_bound.
    rewrite unpack_pack_BCD8. unfold uint32_t.
    rewrite (Z.mod_small v) by done. apply Z.mod_small.
    change (10 ^ 8) with 100000000.
    pose proof (Z.mod_pos_bound v 100000000 eq_refl). lia.
Qed.

Lemma setBCD_getBCD_witness :
  (∃ d', setBCD4_be LittleEndian [0; 0; 0; 0] 1 1234 = Some d'
         ∧ getBCD4_be LittleEndian d' 1 = Some 1234)
  ∧ (∃ d', setBCD2 [0; 0] 0 123 = Some d' ∧ getBCD2 d' 0 = Some 23).
Proof.
  destruct (setBCD_getBCD LittleEndian) as (H2 & H4 & _).
  split.
  - destruct (H4 [0; 0; 0; 0] 1%nat 1234) as (d' & Hs & _ & Hg);
      [simpl; lia|lia|].
    exists d'. split; [exact Hs|]. apply Hg. lia.
  - destruct (H2 [0; 0] 0%nat 123) as (d' & Hs & Hg & _); [simpl; lia|lia|].
    exists d'. split; [exact Hs|exact Hg].
Defined.

(** ** Text *)

Lemma writeASCII_loop_modifies txt eos offset n : ∀ d i d',
  writeASCII_loop d offset txt eos n i = Some d' →
  modifies_only (offset + i) n d d'.
Proof.
  induction n as [|n IH]; intros d i d' H; simpl in H.
  - injection H as <-. apply modifies_only_refl.
  - destruct (match txt !! i with
              | Some u => poke d (offset + i) (toLatin1 u)
              | None => poke d (offset + i) eos
              end) as [d1|] eqn:Hd1; [|done]. simpl in H.
    apply IH in H.
    apply modifies_only_trans with d1.
    + apply modifies_only_mono with (offset + i)%nat 1%nat; [lia..|].
      destruct (txt !! i); by eapply poke_modifies.
    + apply modifies_only_mono with (offset + S i)%nat n; [lia..|done].
Qed.

Lemma writeASCII_loop_spec txt eos offset n : ∀ d i,
  (offset + i + n ≤ length d)%nat →
  ∃ d', writeASCII_loop d offset txt eos n i = Some d'
        ∧ ∀ j : nat, (i ≤ j < i + n)%nat →
            d' !! (offset + j)%nat = Some (asciiAt txt eos j).
Proof.
  induction n as [|n IH]; intros d i Hlen; simpl.
  - eexists. split; [done|]. intros j Hj. lia.
  - assert (∃ d1, match txt !! i with
                  | Some u => poke d (offset + i) (toLatin1 u)
                  | None => poke d (offset + i) eos
                  end = Some d1
                  ∧ d1 !! (offset + i)%nat = Some (asciiAt txt eos i)
                  ∧ length d1 = length d) as (d1 & -> & Hi & Hl).
    { unfold asciiAt. destruct (txt !! i); rewrite poke_Some by lia;
        eexists; (split; [done|]);
        (split; [apply list_lookup_insert_eq; lia|apply length_insert]). }
    simpl. destruct (IH d1 (S i)) as (d' & Hw & Hj); [lia|].
    exists d'. split; [done|]. intros j Hj'.
    destruct (decide (j = i)) as [->|Hne]; [|apply Hj; lia].
    apply writeASCII_loop_modifies in Hw as [_ Hw].
    rewrite Hw by lia. done.
Qed.

Lemma readASCII_loop_spec d offset eos t : ∀ n i acc,
  (length t ≤ n)%nat →
  (∀ j : nat, (j < length t)%nat → d !! (offset + i + j)%nat = t !! j) →
  Forall (λ c, c ≠ 0 ∧ c ≠ eos) t →
  (length t = n
   ∨ d !! (offset + i + length t)%nat = Some 0
   ∨ d !! (offset + i + length t)%nat = Some eos) →
  readASCII_loop d offset eos n i acc = Some (acc ++ t).
Proof.
  induction t as [|c t IH]; intros n i acc Hn Hj Hok Hend.
  - rewrite app_nil_r. destruct n as [|n]; [done|]. simpl in *.
    rewrite Nat.add_0_r in Hend. unfold peek.
    destruct Hend as [?|[->| ->]]; [lia|simpl..];
      repeat case_decide; done.
  - destruct n as [|n]; simpl in Hn; [lia|]. simpl.
    apply Forall_cons in Hok as [[Hc0 Hce] Hok].
    unfold peek. pose proof (Hj 0%nat ltac:(simpl; lia)) as H0.
    rewrite Nat.add_0_r in H0. rewrite H0. simpl.
    repeat case_decide; try congruence. unfold fromLatin1.
    rewrite (IH n (S i) (acc ++ [c])); [by rewrite <- app_assoc|lia| |done|].
    + intros j Hlt. specialize (Hj (S j) ltac:(simpl; lia)).
      simpl in Hj. rewrite <- Hj. f_equal. lia.
    + simpl in Hend.
      replace (offset + S i + length t)%nat
        with (offset + i + S (length t))%nat by lia.
      destruct Hend as [?|?]; [left; lia|by right].
Qed.

Lemma readASCII_loop_inv d offset eos n : ∀ i acc r,
  readASCII_loop d offset eos n i acc = Some r →
  ∃ t, r = acc ++ t ∧ stopsAt d (offset + i) n eos t.
Proof.
  induction n as [|n IH]; intros i acc r H; simpl in H.
  - injection H as <-. exists []. rewrite app_nil_r. split; [done|].
    split; [done|]. split; [intros j Hj; simpl in Hj; lia|].
    split; [constructor|by left].
  - unfold peek in H. destruct (d !! (offset + i)%nat) as [c|] eqn:Hc; [|done].
    simpl in H. destruct (decide (c = 0)) as [->|Hc0].
    { injection H as <-. exists []. rewrite app_nil_r. split; [done|].
      split; [simpl; lia|]. split; [intros j Hj; simpl in Hj; lia|].
      split; [constructor|]. right; left. simpl. by rewrite Nat.add_0_r. }
    destruct (decide (eos = c)) as [->|Hce].
    { injection H as <-. exists []. rewrite app_nil_r. split; [done|].
      split; [simpl; lia|]. split; [intros j Hj; simpl in Hj; lia|].
      split; [constructor|]. right; right. simpl. by rewrite Nat.add_0_r. }
    apply IH in H as (t & -> & Hl & Hj & Hok & Hend).
    exists (c :: t). unfold fromLatin1. rewrite <- app_assoc. split; [done|].
    split; [simpl; lia|]. split; [|split].
    + intros [|j] Hlt; simpl in *; [by rewrite Nat.add_0_r|].
      rewrite <- Hj by lia. f_equal. lia.
    + constructor; [|done]. split; congruence.
    + simpl.
      replace (offset + i + S (length t))%nat
        with (offset + S i + length t)%nat by lia.
      destruct Hend as [?|?]; [left; lia|by right].
Qed.

Lemma readASCII_loop_Some d offset eos n : ∀ i acc,
  (offset + i + n ≤ length d)%nat →
  is_Some (readASCII_loop d offset eos n i acc).
Proof.
  induction n as [|n IH]; intros i acc Hlen; simpl; [done|].
  destruct (peek_Some d (offset + i)) as [c ->]; [lia|]. simpl.
  repeat case_decide; try done. apply IH. lia.
Qed.

(** Claim C7, as the code has it.  With [maxlen] bytes inside the
    buffer: [writeASCII] is defined; [readASCII] then returns [s] when
    [s] is no longer than [maxlen], and its first [maxlen] code units
    when it is longer, provided the code units written are Latin-1,
    not null and not the terminator; every position from the end of [s]
    up to [maxlen] holds the terminator; and on any buffer [readASCII]
    returns the run of bytes up to the first terminator, the first null
    byte or [maxlen]. *)
Theorem writeASCII_readASCII (d : list Z) (offset maxlen : nat) (s : list Z)
    (eos : Z) :
  (offset + maxlen ≤ length d)%nat → is_byte eos →
  ∃ d', writeASCII d offset s maxlen eos = Some d'
    ∧ ((length s ≤ maxlen)%nat → plainLatin1 eos s →
       readASCII d' offset maxlen eos = Some s)
    ∧ ((maxlen < length s)%nat → plainLatin1 eos (take maxlen s) →
       readASCII d' offset maxlen eos = Some (take maxlen s))
    ∧ (∀ i : nat, (length s ≤ i < maxlen)%nat →
         d' !! (offset + i)%nat = Some eos)
    ∧ ∃ txt, readASCII d offset maxlen eos = Some txt
             ∧ stopsAt d offset maxlen eos txt.
Proof.
  intros Hlen Heos. unfold writeASCII, readASCII.
  assert (uint8_t eos = eos) as -> by by apply Z.mod_small.
  destruct (writeASCII_loop_spec s eos offset maxlen d 0) as (d' & Hw & Hd');
    [lia|].
  assert (length d' = length d) as Hl
    by by apply writeASCII_loop_modifies in Hw as [? _].
  assert (uint8_t eos = eos) as Hcast by by apply Z.mod_small.
  assert (plainLatin1 eos (take maxlen s) →
          readASCII_loop d' offset eos maxlen 0 [] = Some (take maxlen s))
    as Hread.
  { intros Hs.
    apply (readASCII_loop_spec d' offset eos (take maxlen s) maxlen 0 []).
    - rewrite length_take. lia.
    - intros j Hj. rewrite length_take in Hj. rewrite Nat.add_0_r.
      rewrite Hd' by lia. unfold asciiAt. rewrite lookup_take_lt by lia.
      destruct (s !! j) as [u|] eqn:Hu.
      + assert (take maxlen s !! j = Some u) as Ht
          by by rewrite lookup_take_lt by lia.
        pose proof (Forall_lookup_1 _ _ _ _ Hs Ht) as [Hu' _]. simpl in Hu'.
        f_equal. unfold toLatin1. rewrite decide_False by lia.
        apply Z.mod_small. lia.
      + apply lookup_ge_None in Hu. lia.
    - eapply Forall_impl; [exact Hs|]. simpl. intros u [? ?]. lia.
    - rewrite length_take, Nat.add_0_r.
      destruct (decide (maxlen ≤ length s)%nat); [left; lia|].
      right; right. rewrite Nat.min_r by lia. rewrite Hd' by lia.
      unfold asciiAt. rewrite lookup_ge_None_2 by lia. by rewrite Hcast. }
  exists d'. split; [done|]. split; [|split; [|split]].
  - intros Hs Hp. assert (take maxlen s = s) as E by (apply take_ge; lia).
    rewrite E in Hread. by apply Hread.
  - intros _ Hp. by apply Hread.
  - intros i Hi. rewrite Hd' by lia. unfold asciiAt.
    rewrite lookup_ge_None_2 by lia. by rewrite Hcast.
  - destruct (readASCII_loop_Some d offset eos maxlen 0 []) as [txt Htxt];
      [lia|].
    exists txt. split; [done|].
    apply readASCII_loop_inv in Htxt as (t & -> & Hst).
    by rewrite Nat.add_0_r in Hst.
Qed.

Lemma writeASCII_readASCII_witness :
  ∃ d', writeASCII [1; 2; 3; 4; 5; 6] 1 [0x61; 0x62] 4 0xff = Some d'
        ∧ readASCII d' 1 4 0xff = Some [0x61; 0x62]
        ∧ d' !! 3%nat = Some 0xff.
Proof.
  destruct (writeASCII_readASCII [1; 2; 3; 4; 5; 6] 1 4 [0x61; 0x62] 0xff)
    as (d' & Hw & Hr & _ & Hp & _).
  - simpl. lia.
  - unfold is_byte. lia.
  - exists d'. split; [exact Hw|]. split.
    + apply Hr; [simpl; lia|]. unfold plainLatin1.
      repeat constructor; lia.
    + apply (Hp 2%nat). simpl. lia.
Defined.

(** Claim C7 does not hold for every string: a string that contains
    the terminator is cut there by [readASCII]. *)
Lemma writeASCII_readASCII_terminator_in_text :
  ¬ (∀ (d : list Z) (offset maxlen : nat) (s : list Z) (eos : Z) (d' : list Z),
       (length s ≤ maxlen)%nat →
       writeASCII d offset s maxlen eos = Some d' →
       readASCII d' offset maxlen eos = Some s).
Proof.
  intros H.
  specialize (H [0; 0; 0] 0%nat 3%nat [0x61; 0x20; 0x62] 0x20
                [0x61; 0x20; 0x62]).
  discriminate H; [simpl; lia|reflexivity].
Qed.

(** ** Frames of the writes *)

Lemma frame_poke w d offset p v :
  (offset ≤ p)%nat → (p + 1 ≤ offset + w)%nat → frame w d offset (poke d p v).
Proof.
  intros ?? d' H%poke_modifies. by apply modifies_only_mono with p 1%nat.
Qed.

Lemma frame_bind {A} w d offset (m : option A) (f : A → option (list Z)) :
  (∀ a, m = Some a → frame w d offset (f a)) → frame w d offset (m ≫= f).
Proof. intros H d' Hd'. destruct m as [a|]; [|done]. by eapply H. Qed.

Lemma frame_then w d offset (m : option (list Z)) (f : list Z → option (list Z)) :
  frame w d offset m → (∀ d1, m = Some d1 → frame w d1 offset (f d1)) →
  frame w d offset (m ≫= f).
Proof.
  intros Hm Hf d' Hd'. destruct m as [d1|]; [|done]. simpl in Hd'.
  apply modifies_only_trans with d1; [by apply Hm|by eapply Hf].
Qed.

Lemma frame_store host n d offset v : frame n d offset (store host n d offset v).
Proof. intros d' H. by eapply store_modifies. Qed.

Lemma frame_setBit d offset bit b : frame 1 d offset (setBit d offset bit b).
Proof.
  unfold setBit. apply frame_bind; intros p _. apply frame_bind; intros m _.
  destruct b; apply frame_poke; lia.
Qed.

Lemma frame_clearBit d offset bit : frame 1 d offset (clearBit d offset bit).
Proof.
  unfold clearBit. apply frame_bind; intros p _. apply frame_bind; intros m _.
  apply frame_poke; lia.
Qed.

Lemma frame_setField mask d offset bit value :
  frame 1 d offset (setField mask d offset bit value).
Proof.
  unfold setField. apply frame_bind; intros p _. apply frame_bind; intros m _.
  apply frame_then; [apply frame_poke; lia|]. intros d1 _.
  apply frame_bind; intros p1 _. apply frame_bind; intros v _.
  apply frame_poke; lia.
Qed.

Lemma frame_setUInt24_be d offset value :
  frame 3 d offset (setUInt24_be d offset value).
Proof.
  unfold setUInt24_be. apply frame_then; [apply frame_poke; lia|]. intros d0 _.
  apply frame_then; [apply frame_poke; lia|]. intros d1 _.
  apply frame_poke; lia.
Qed.

Lemma frame_setUInt24_le d offset value :
  frame 3 d offset (setUInt24_le d offset value).
Proof.
  unfold setUInt24_le. apply frame_then; [apply frame_poke; lia|]. intros d0 _.
  apply frame_then; [apply frame_poke; lia|]. intros d1 _.
  apply frame_poke; lia.
Qed.

Lemma frame_writeASCII d offset txt maxlen eos :
  frame maxlen d offset (writeASCII d offset txt maxlen eos).
Proof.
  intros d' H%writeASCII_loop_modifies. by rewrite Nat.add_0_r in H.
Qed.

Lemma setField_Some mask d offset bit value :
  (offset < length d)%nat → (bit < 32)%nat →
  is_Some (setField mask d offset bit value).
Proof.
  intros Ho Hb. destruct (peek_Some d offset Ho) as [p Hp].
  unfold setField. rewrite Hp. simpl. rewrite !shl_Some by done. simpl.
  rewrite poke_Some by done. simpl. unfold peek.
  rewrite list_lookup_insert_eq by done. simpl.
  rewrite poke_Some by (by rewrite length_insert). done.
Qed.

(** Claim C10.  Whatever buffer a write produces, it has the size of
    the old one and differs from it at most in the bytes of the field:
    one byte for [setBit], [clearBit], [setUInt2] to [setUInt6],
    [setUInt8] and [setBCD2], two for [setUInt16] and [setBCD4], three
    for [setUInt24], four for [setUInt32] and [setBCD8], [maxlen] for
    [writeASCII]; and each write does produce a buffer when its field
    lies inside the old one (and the bit position is below 32). *)
Theorem writes_stay_in_field host (d : list Z) (offset bit : nat) (b : bool)
    (value : Z) (txt : list Z) (maxlen : nat) (eos : Z) :
  (frame 1 d offset (setBit d offset bit b)
   ∧ frame 1 d offset (clearBit d offset bit)
   ∧ (∀ N get set, (N, get, set) ∈ subByteFields →
        frame 1 d offset (set d offset bit value))
   ∧ frame 1 d offset (setUInt8 d offset value)
   ∧ frame 1 d offset (setBCD2 d offset value))
  ∧ (frame 2 d offset (setUInt16_be host d offset value)
     ∧ frame 2 d offset (setUInt16_le host d offset value)
     ∧ frame 2 d offset (setBCD4_be host d offset value)
     ∧ frame 2 d offset (setBCD4_le host d offset value))
  ∧ (frame 3 d offset (setUInt24_be d offset value)
     ∧ frame 3 d offset (setUInt24_le d offset value))
  ∧ (frame 4 d offset (setUInt32_be host d offset value)
     ∧ frame 4 d offset (setUInt32_le host d offset value)
     ∧ frame 4 d offset (setBCD8_be host d offset value)
     ∧ frame 4 d offset (setBCD8_le host d offset value))
  ∧ frame maxlen d offset (writeASCII d offset txt maxlen eos)
  ∧ ((offset < length d)%nat → (bit < 32)%nat →
     is_Some (setBit d offset bit b) ∧ is_Some (clearBit d offset bit)
     ∧ (∀ N get set, (N, get, set) ∈ subByteFields →
          is_Some (set d offset bit value))
     ∧ is_Some (setUInt8 d offset value) ∧ is_Some (setBCD2 d offset value))
  ∧ ((offset + 2 ≤ length d)%nat →
     is_Some (setUInt16_be host d offset value)
     ∧ is_Some (setUInt16_le host d offset value)
     ∧ is_Some (setBCD4_be host d offset value)
     ∧ is_Some (setBCD4_le host d offset value))
  ∧ ((offset + 3 ≤ length d)%nat →
     is_Some (setUInt24_be d offset value)
     ∧ is_Some (setUInt24_le d offset value))
  ∧ ((offset + 4 ≤ length d)%nat →
     is_Some (setUInt32_be host d offset value)
     ∧ is_Some (setUInt32_le host d offset value)
     ∧ is_Some (setBCD8_be host d offset value)
     ∧ is_Some (setBCD8_le host d offset value))
  ∧ ((offset + maxlen ≤ length d)%nat →
     is_Some (writeASCII d offset txt maxlen eos)).
Proof.
  assert (∀ N get set, (N, get, set) ∈ subByteFields →
            ∃ mask, set = setField mask) as Hfields.
  { intros N get set Hin. unfold subByteFields in Hin.
    repeat (apply elem_of_cons in Hin as [Hin|Hin];
            [injection Hin as -> -> ->; by eexists|]).
    by apply elem_of_nil in Hin. }
  split_and!;
    try match goal with
        | |- (_ < _)%nat → _ => intros; split_and?
        | |- (_ ≤ _)%nat → _ => intros; split_and?
        end.
  - apply frame_setBit.
  - apply frame_clearBit.
  - intros N get set [mask ->]%Hfields. apply frame_setField.
  - apply frame_poke; lia.
  - apply frame_poke; lia.
  - apply frame_store.
  - apply frame_store.
  - apply frame_store.
  - apply frame_store.
  - apply frame_setUInt24_be.
  - apply frame_setUInt24_le.
  - apply frame_store.
  - apply frame_store.
  - apply frame_store.
  - apply frame_store.
  - apply frame_writeASCII.
  - destruct (peek_Some d offset) as [p Hp]; [done|].
    unfold setBit. rewrite Hp. simpl. rewrite shl_Some by done. simpl.
    destruct b; by rewrite poke_Some.
  - destruct (peek_Some d offset) as [p Hp]; [done|].
    unfold clearBit. rewrite Hp. simpl. rewrite shl_Some by done. simpl.
    by rewrite poke_Some.
  - intros N get set [mask ->]%Hfields. by apply setField_Some.
  - unfold setUInt8. by rewrite poke_Some.
  - unfold setBCD2, setUInt8. by rewrite poke_Some.
  - by destruct (setUInt16_be_bytes host d offset value) as (? & -> & _).
  - by destruct (setUInt16_le_bytes host d offset value) as (? & -> & _).
  - unfold setBCD4_be.
    by destruct (setUInt16_be_bytes host d offset
                   (packBCD4 (uint16_t value))) as (? & -> & _).
  - unfold setBCD4_le.
    by destruct (setUInt16_le_bytes host d offset
                   (packBCD4 (uint16_t value))) as (? & -> & _).
  - unfold setUInt24_be.
    by destruct (poke3 d offset (Z.land (value ≫ 16) 0xff)
                   (Z.land (value ≫ 8) 0xff) (Z.land (value ≫ 0) 0xff))
      as (? & -> & _).
  - unfold setUInt24_le.
    by destruct (poke3 d offset (Z.land (value ≫ 0) 0xff)
                   (Z.land (value ≫ 8) 0xff) (Z.land (value ≫ 16) 0xff))
      as (? & -> & _).
  - by destruct (setUInt32_be_bytes host d offset value) as (? & -> & _).
  - by destruct (setUInt32_le_bytes host d offset value) as (? & -> & _).
  - unfold setBCD8_be.
    by destruct (setUInt32_be_bytes host d offset
                   (packBCD8 (uint32_t value))) as (? & -> & _).
  - unfold setBCD8_le.
    by destruct (setUInt32_le_bytes host d offset
                   (packBCD8 (uint32_t value))) as (? & -> & _).
  - unfold writeASCII.
    by destruct (writeASCII_loop_spec txt (uint8_t eos) offset maxlen d 0)
      as (? & -> & _); [lia|].
Qed.

Lemma writes_stay_in_field_witness :
  ∃ d', setUInt24_be [1; 2; 3; 4; 5] 1 0xabcdef = Some d'
        ∧ d' !! 0%nat = Some 1 ∧ d' !! 4%nat = Some 5.
Proof.
  destruct (writes_stay_in_field LittleEndian [1; 2; 3; 4; 5] 1 0 true
              0xabcdef [] 0 0)
    as (_ & _ & (Hf & _) & _ & _ & _ & _ & Hd & _).
  destruct Hd as [[d' Hd'] _]; [simpl; lia|].
  exists d'. split; [exact Hd'|].
  destruct (Hf d' Hd') as [_ Hj].
  split; (rewrite Hj; [reflexivity|lia]).
Defined.

(** ** Unicode text *)

(** Claim C8 at the input where the code departs from it.  The text
    "A", null, "B" written with terminator 0xffff into a field of four
    code units is read back whole: [readUnicode] does not stop at the
    null code unit.  [readASCII] stops at the null byte of the same text
    in bytes. *)
Theorem readUnicode_reads_past_null host :
  (∃ d', writeUnicode host [0; 0; 0; 0; 0; 0; 0; 0] 0 [0x41; 0; 0x42] 4 0xffff
         = Some d'
         ∧ readUnicode host d' 0 4 0xffff = Some [0x41; 0; 0x42])
  ∧ readASCII [0x41; 0; 0x42; 0xff] 0 4 0xff = Some [0x41].
Proof. split; [destruct host; eexists; split; reflexivity|reflexivity]. Qed.

(** * Properties of the registry *)

Lemma hasTable_getTable ctx m : hasTable ctx m = true ↔ is_Some (getTable ctx m).
Proof.
  induction m as [name|name super IH]; simpl; by case_decide.
Qed.

Lemma hasTable_false ctx m : hasTable ctx m = false ↔ getTable ctx m = None.
Proof.
  rewrite <- Bool.not_true_iff_false, hasTable_getTable.
  by rewrite eq_None_not_Some.
Qed.

Lemma getTable_nearest ctx m cat :
  getTable ctx m = Some cat ↔ nearestTable ctx m cat.
Proof.
  split.
  - induction m as [name|name super IH]; simpl; case_decide as Hn;
      intros Heq; try done.
    + injection Heq as <-. by apply (nearest_here ctx (RootClass name)).
    + injection Heq as <-. by apply (nearest_here ctx (SubClass name super)).
    + apply (nearest_above ctx (SubClass name super) super); [|done|by apply IH].
      simpl. by apply eq_None_not_Some.
  - induction 1 as [t Ht|t s cat' Hnone Hs Hn IH].
    + destruct t; simpl in *; by rewrite decide_True.
    + destruct t; simpl in *; [done|]. injection Hs as ->.
      rewrite decide_False; [done|]. rewrite Hnone. by intros [? ?].
Qed.

Lemma getTable_registered ctx m cat :
  getTable ctx m = Some cat → is_Some (_tables ctx !! cat).
Proof.
  induction m as [name|name super IH]; simpl; case_decide; intros Heq;
    try done; try (by injection Heq as <-). by apply IH.
Qed.

(** Overwriting a table that is there moves no reference. *)
Lemma getTable_overwrite ctx k t m :
  is_Some (_tables ctx !! k) →
  getTable (mkContext (<[k := t]> (_tables ctx))) m = getTable ctx m.
Proof.
  intros Hk.
  assert (∀ n, is_Some (<[k := t]> (_tables ctx) !! n)
               ↔ is_Some (_tables ctx !! n)) as Hdom.
  { intros n. destruct (decide (k = n)) as [->|Hne].
    - rewrite lookup_insert_eq. split; [done|by eexists].
    - by rewrite lookup_insert_ne. }
  induction m as [name|name super IH]; simpl;
    destruct (decide (is_Some (<[k := t]> (_tables ctx) !! name))) as [H1|H1],
             (decide (is_Some (_tables ctx !! name))) as [H2|H2];
    try done;
    solve [ destruct H2; by apply Hdom | destruct H1; by apply Hdom ].
Qed.

Section RegistryFacts.
Variable metaObject : ConfigObject → QMetaObject.

(** [add] in one piece: what it does with the table [getTable] finds. *)
Lemma add_unfold ctx o idx :
  add metaObject ctx o idx =
  match getTable ctx (metaObject o) with
  | None => Some (false, ctx)
  | Some k =>
      t ← _tables ctx !! k;
      if decide (is_Some (indices t !! o)) then Some (false, ctx)
      else if decide (is_Some (objects t !! idx)) then Some (false, ctx)
      else Some (true,
                 mkContext (<[k := mkTable (<[idx := o]> (objects t))
                                           (<[o := idx]> (indices t))]>
                              (_tables ctx)))
  end.
Proof.
  unfold add. destruct (getTable ctx (metaObject o)) as [k|] eqn:Hk.
  - assert (hasTable ctx (metaObject o) = true) as ->
      by (apply hasTable_getTable; by rewrite Hk).
    simpl. unfold tableAt, setTableAt. rewrite Hk. simpl.
    destruct (_tables ctx !! k) as [t|] eqn:Ht; [|done]. simpl.
    repeat case_decide; try done. simpl.
    rewrite getTable_overwrite, Hk by (by rewrite Ht). simpl.
    rewrite lookup_insert_eq. simpl. by rewrite insert_insert_eq.
  - by apply hasTable_false in Hk as ->.
Qed.
End RegistryFacts.

Lemma mirrored_empty : mirrored (mkTable ∅ ∅).
Proof. intros i e. simpl. by rewrite !lookup_empty. Qed.

Lemma mirrored_insert t idx o :
  mirrored t → objects t !! idx = None → indices t !! o = None →
  mirrored (mkTable (<[idx := o]> (objects t)) (<[o := idx]> (indices t))).
Proof.
  intros Hm Hi Ho i e. simpl.
  destruct (decide (idx = i)) as [->|Hne], (decide (o = e)) as [->|Hne'].
  - by rewrite !lookup_insert_eq.
  - rewrite lookup_insert_eq, lookup_insert_ne by done. split.
    + by intros [= ->].
    + intros He%Hm. congruence.
  - rewrite lookup_insert_ne, lookup_insert_eq by done. split.
    + intros He%Hm. congruence.
    + by intros [= ->].
  - rewrite !lookup_insert_ne by done. apply Hm.
Qed.

Lemma mirrored_injective t :
  mirrored t →
  (∀ i j e, objects t !! i = Some e → objects t !! j = Some e → i = j)
  ∧ (∀ e e' i, indices t !! e = Some i → indices t !! e' = Some i → e = e').
Proof.
  intros Hm. split.
  - intros i j e Hi%Hm Hj%Hm. congruence.
  - intros e e' i He%Hm He'%Hm. congruence.
Qed.

Section RegistryTheorems.
Variable metaObject : ConfigObject → QMetaObject.

Lemma addTable_mirrored ctx m :
  (∀ k t, _tables ctx !! k = Some t → mirrored t) →
  ∀ k t, _tables (snd (addTable ctx m)) !! k = Some t → mirrored t.
Proof.
  intros Hctx k t. unfold addTable. destruct (hasTable ctx m); simpl.
  - apply Hctx.
  - destruct (decide (className m = k)) as [->|Hne].
    + rewrite lookup_insert_eq. intros [= <-]. apply mirrored_empty.
    + rewrite lookup_insert_ne by done. apply Hctx.
Qed.

Lemma add_mirrored ctx o idx r ctx' :
  add metaObject ctx o idx = Some (r, ctx') →
  (∀ k t, _tables ctx !! k = Some t → mirrored t) →
  ∀ k t, _tables ctx' !! k = Some t → mirrored t.
Proof.
  rewrite add_unfold. intros Hadd Hctx.
  destruct (getTable ctx (metaObject o)) as [cat|]; [|by injection Hadd as _ <-].
  destruct (_tables ctx !! cat) as [tc|] eqn:Htc; [|done]. simpl in Hadd.
  destruct (decide (is_Some (indices tc !! o))) as [|Ho];
    [by injection Hadd as _ <-|].
  destruct (decide (is_Some (objects tc !! idx))) as [|Hi];
    [by injection Hadd as _ <-|].
  injection Hadd as _ <-. intros k t. simpl.
  destruct (decide (cat = k)) as [->|Hne].
  - rewrite lookup_insert_eq. intros [= <-].
    apply mirrored_insert; [by eapply Hctx|by apply eq_None_not_Some..].
  - rewrite lookup_insert_ne by done. apply Hctx.
Qed.

(** Claim C2.  In every context reached from the constructor's by
    [addTable] and [add], the two hashes of every table mirror each
    other, and no entity sits at two indices, no index under two
    entities. *)
Theorem reachable_mirrored cls ctx :
  reachable metaObject cls ctx →
  ∀ k t, _tables ctx !! k = Some t →
    mirrored t
    ∧ (∀ i j e, objects t !! i = Some e → objects t !! j = Some e → i = j)
    ∧ (∀ e e' i,
         indices t !! e = Some i → indices t !! e' = Some i → e = e').
Proof.
  intros Hr.
  assert (∀ k t, _tables ctx !! k = Some t → mirrored t) as Hm.
  { induction Hr as [|ctx m _ IH|ctx o idx r ctx' _ IH Hadd].
    - unfold newContext. do 10 apply addTable_mirrored.
      intros k t. simpl. by rewrite lookup_empty.
    - by apply addTable_mirrored.
    - by eapply add_mirrored. }
  intros k t Ht. split; [by eapply Hm|]. apply mirrored_injective.
  by eapply Hm.
Qed.

(** Claim C1.  [add] returns false and the context it was given when
    the class of the entity and its ancestors have no table, when the
    index is taken in the table found, or when the entity is in that
    table already; in the one remaining case it returns true and the
    context with the pair in both hashes of that table.  One of the
    cases always applies. *)
Theorem add_spec ctx o idx :
  (noTable ctx (metaObject o) → add metaObject ctx o idx = Some (false, ctx))
  ∧ (∀ cat t,
       nearestTable ctx (metaObject o) cat → _tables ctx !! cat = Some t →
       (is_Some (objects t !! idx) ∨ is_Some (indices t !! o) →
        add metaObject ctx o idx = Some (false, ctx))
       ∧ (objects t !! idx = None → indices t !! o = None →
          add metaObject ctx o idx
          = Some (true,
                  mkContext (<[cat := mkTable (<[idx := o]> (objects t))
                                              (<[o := idx]> (indices t))]>
                               (_tables ctx)))))
  ∧ (noTable ctx (metaObject o)
     ∨ ∃ cat t, nearestTable ctx (metaObject o) cat
                ∧ _tables ctx !! cat = Some t).
Proof.
  rewrite add_unfold. split; [|split].
  - intros Hno. destruct (getTable ctx (metaObject o)) as [k|] eqn:Hk; [|done].
    by apply getTable_nearest, Hno in Hk.
  - intros cat t Hcat%getTable_nearest Ht. rewrite Hcat, Ht. simpl. split.
    + intros [Hi|Ho]; repeat case_decide; done.
    + intros Hi Ho. rewrite !decide_False; [done|..];
        rewrite ?Hi, ?Ho; by intros [? ?].
  - destruct (getTable ctx (metaObject o)) as [k|] eqn:Hk.
    + right. destruct (getTable_registered _ _ _ Hk) as [t Ht].
      exists k, t. split; [by apply getTable_nearest|done].
    + left. intros cat Hcat%getTable_nearest. congruence.
Qed.

(** Claim C9, as the code has it.  [obj] returns null when the class
    and its ancestors have no table, and otherwise what the table
    found holds at the index, null when that is nothing.  [index]
    returns -1 when the class of the entity and its ancestors have no
    table or the entity is not in the table found, and otherwise the
    index of the entity, when that index is below [2 ^ 31]. *)
Theorem obj_index_spec ctx :
  (∀ (elementType : QMetaObject) (idx : Z),
     (noTable ctx elementType → obj ctx elementType idx = Some None)
     ∧ (∀ cat t,
          nearestTable ctx elementType cat → _tables ctx !! cat = Some t →
          obj ctx elementType idx = Some (objects t !! idx)))
  ∧ (∀ o : ConfigObject,
       (noTable ctx (metaObject o) → index metaObject ctx o = Some (-1))
       ∧ (∀ cat t,
            nearestTable ctx (metaObject o) cat →
            _tables ctx !! cat = Some t →
            (indices t !! o = None → index metaObject ctx o = Some (-1))
            ∧ (∀ i, indices t !! o = Some i → 0 ≤ i < 2 ^ 31 →
                 index metaObject ctx o = Some i))).
Proof.
  split.
  - intros elementType idx. unfold obj, tableAt. split.
    + intros Hno.
      destruct (getTable ctx elementType) as [k|] eqn:Hk;
        [by apply getTable_nearest, Hno in Hk|].
      by apply hasTable_false in Hk as ->.
    + intros cat t Hcat%getTable_nearest Ht.
      assert (hasTable ctx elementType = true) as ->
        by (apply hasTable_getTable; by rewrite Hcat).
      simpl. by rewrite Hcat; simpl; rewrite Ht.
  - intros o. unfold index, tableAt. split.
    + intros Hno.
      destruct (getTable ctx (metaObject o)) as [k|] eqn:Hk;
        [by apply getTable_nearest, Hno in Hk|].
      by apply hasTable_false in Hk as ->.
    + intros cat t Hcat%getTable_nearest Ht.
      assert (hasTable ctx (metaObject o) = true) as ->
        by (apply hasTable_getTable; by rewrite Hcat).
      simpl. rewrite Hcat; simpl; rewrite Ht; simpl. split.
      * by intros ->.
      * intros i -> Hi. simpl. f_equal. unfold int.
        rewrite Z.mod_small by lia. lia.
Qed.

(** Claim C3.  Let the nearest class with a table be the same, [cat],
    for the classes of [a] and of [b], and let [a] be added at [i].
    Then adding [b] at [i] fails; if adding [b] at [j] succeeds, [j]
    differs from [i] and the one table of [cat] holds both; and it
    does succeed when [b] is another entity, not yet in the table, and
    [j] another index, not yet taken. *)
Theorem shared_table ctx (a b : ConfigObject) cat (i j : Z) ctx1 :
  nearestTable ctx (metaObject a) cat →
  nearestTable ctx (metaObject b) cat →
  add metaObject ctx a i = Some (true, ctx1) →
  add metaObject ctx1 b i = Some (false, ctx1)
  ∧ (∀ ctx2,
       add metaObject ctx1 b j = Some (true, ctx2) →
       i ≠ j ∧ a ≠ b
       ∧ ∃ t, _tables ctx2 !! cat = Some t
              ∧ objects t !! i = Some a ∧ objects t !! j = Some b
              ∧ indices t !! a = Some i ∧ indices t !! b = Some j)
  ∧ (∀ t, _tables ctx !! cat = Some t →
          a ≠ b → i ≠ j → indices t !! b = None → objects t !! j = None →
          ∃ ctx2, add metaObject ctx1 b j = Some (true, ctx2)).
Proof.
  intros Ha%getTable_nearest Hb%getTable_nearest. rewrite !add_unfold, Ha.
  destruct (_tables ctx !! cat) as [t|] eqn:Ht; [|done]. simpl.
  destruct (decide (is_Some (indices t !! a))) as [|Hia]; [done|].
  destruct (decide (is_Some (objects t !! i))) as [|Hoi]; [done|].
  intros [= <-].
  rewrite !getTable_overwrite, Hb by (by rewrite Ht).
  simpl. rewrite lookup_insert_eq. simpl.
  rewrite insert_insert_eq. split; [|split].
  - case_decide; [done|].
    rewrite decide_True; [done|]. rewrite lookup_insert_eq. by eexists.
  - intros ctx2. simpl.
    destruct (decide (a = b)) as [->|Hab].
    { rewrite lookup_insert_eq. rewrite decide_True by by eexists. done. }
    rewrite lookup_insert_ne by done.
    destruct (decide (is_Some (indices t !! b))) as [|Hib]; [done|].
    destruct (decide (i = j)) as [->|Hij].
    { rewrite lookup_insert_eq. rewrite decide_True by by eexists. done. }
    rewrite lookup_insert_ne by done.
    destruct (decide (is_Some (objects t !! j))) as [|Hoj]; [done|].
    intros [= <-]. simpl. split; [done|]. split; [done|].
    eexists. rewrite lookup_insert_eq. split; [done|]. simpl.
    rewrite lookup_insert_ne, !lookup_insert_eq by done.
    by rewrite lookup_insert_ne, lookup_insert_eq.
  - intros t' [= <-] Hab Hij Hib Hoj. simpl.
    rewrite !lookup_insert_ne by done. rewrite Hib, Hoj.
    rewrite !decide_False by by intros [? ?]. by eexists.
Qed.
End RegistryTheorems.


Lemma add_spec_witness :
  ∃ ctx', add Example.dynamicType (newContext Example.classes) 1 5
          = Some (true, ctx')
          ∧ add Example.dynamicType ctx' 2 5 = Some (false, ctx').
Proof.
  destruct (add_spec Example.dynamicType (newContext Example.classes)
              1%positive 5) as (_ & Hadd & _).
  destruct (Hadd "Channel"%string (mkTable ∅ ∅)) as [_ Hok].
  - apply getTable_nearest. vm_compute. reflexivity.
  - vm_compute. reflexivity.
  - eexists. split; [apply Hok; vm_compute; reflexivity|].
    match goal with |- add _ ?c _ _ = _ =>
      destruct (add_spec Example.dynamicType c 2%positive 5) as (_ & Hadd' & _)
    end.
    edestruct (Hadd' "Channel"%string) as [Hfail _];
      [apply getTable_nearest; vm_compute; reflexivity
      |vm_compute; reflexivity|].
    apply Hfail. left. vm_compute. by eexists.
Defined.

Lemma reachable_mirrored_witness :
  reachable Example.dynamicType Example.classes Example.oneChannel
  ∧ ∃ t, _tables Example.oneChannel !! "Channel"%string = Some t
         ∧ objects t !! 5 = Some 1%positive
         ∧ mirrored t.
Proof.
  assert (reachable Example.dynamicType Example.classes Example.oneChannel)
    as Hr.
  { apply (reach_add _ _ (newContext Example.classes) 1%positive 5 true);
      [apply reach_new|vm_compute; reflexivity]. }
  split; [exact Hr|].
  exists (mkTable {[5 := 1%positive]} {[1%positive := 5]}).
  split; [vm_compute; reflexivity|]. split; [vm_compute; reflexivity|].
  apply (reachable_mirrored Example.dynamicType Example.classes _ Hr
           "Channel"%string).
  vm_compute. reflexivity.
Defined.

(** Claim C9 does not hold at every index: the entity added at the
    [uint] 4294967295 is reported at -1, the value that stands for no
    index. *)
Lemma index_of_slot_4294967295 :
  ∃ ctx', add Example.dynamicType (newContext Example.classes) 1 4294967295
          = Some (true, ctx')
          ∧ index Example.dynamicType ctx' 1 = Some (-1)
          ∧ Some (-1) ≠ Some 4294967295.
Proof. eexists. split; [|split]; [vm_compute; reflexivity..|done]. Qed.

Lemma obj_index_spec_witness :
  obj Example.oneChannel Example.analogChannel 5 = Some (Some 1%positive)
  ∧ obj Example.oneChannel Example.analogChannel 6 = Some None
  ∧ index Example.dynamicType Example.oneChannel 1 = Some 5
  ∧ index Example.dynamicType Example.oneChannel 2 = Some (-1).
Proof.
  destruct (obj_index_spec Example.dynamicType Example.oneChannel)
    as [Hobj Hidx].
  pose (t := mkTable {[5 := 1%positive]} {[1%positive := 5]}).
  assert (_tables Example.oneChannel !! "Channel"%string = Some t) as Ht
    by (vm_compute; reflexivity).
  assert (∀ m, getTable Example.oneChannel m = Some "Channel"%string →
               nearestTable Example.oneChannel m "Channel") as Hn
    by (intros m; apply getTable_nearest).
  split; [|split; [|split]].
  - apply (proj2 (Hobj Example.analogChannel 5) "Channel"%string t);
      [apply Hn; vm_compute; reflexivity|exact Ht].
  - apply (proj2 (Hobj Example.analogChannel 6) "Channel"%string t);
      [apply Hn; vm_compute; reflexivity|exact Ht].
  - destruct (proj2 (Hidx 1%positive) "Channel"%string t) as [_ Hsome];
      [apply Hn; vm_compute; reflexivity|exact Ht|].
    apply Hsome; [vm_compute; reflexivity|lia].
  - destruct (proj2 (Hidx 2%positive) "Channel"%string t) as [Hnone _];
      [apply Hn; vm_compute; reflexivity|exact Ht|].
    apply Hnone. vm_compute. reflexivity.
Defined.

Lemma shared_table_witness :
  ∃ ctx1 ctx2,
    add Example.dynamicType (newContext Example.classes) 1 0 = Some (true, ctx1)
    ∧ add Example.dynamicType ctx1 2 0 = Some (false, ctx1)
    ∧ add Example.dynamicType ctx1 2 1 = Some (true, ctx2)
    ∧ ∃ t, _tables ctx2 !! "Channel"%string = Some t
           ∧ objects t !! 0 = Some 1%positive
           ∧ objects t !! 1 = Some 2%positive.
Proof.
  assert (∃ ctx, add Example.dynamicType (newContext Example.classes) 1 0
                 = Some (true, ctx)) as [ctx1 Hadd1]
    by (eexists; vm_compute; reflexivity).
  destruct (shared_table Example.dynamicType (newContext Example.classes)
              1%positive 2%positive "Channel"%string 0 1 ctx1)
    as (Hsame & Hboth & Hfree).
  - apply getTable_nearest. vm_compute. reflexivity.
  - apply getTable_nearest. vm_compute. reflexivity.
  - exact Hadd1.
  - destruct (Hfree (mkTable ∅ ∅)) as [ctx2 Hadd2];
      [vm_compute; reflexivity|done|done|vm_compute; reflexivity..|].
    exists ctx1, ctx2. split; [exact Hadd1|]. split; [exact Hsame|].
    split; [exact Hadd2|].
    destruct (Hboth ctx2 Hadd2) as (_ & _ & t & Ht & Hi & Hj & _).
    exists t. split; [exact Ht|]. split; [exact Hi|exact Hj].
Defined.

(** * Further properties of the field accessor *)

(** ** Single bits *)

Lemma getBit_testbit d offset bit p :
  d !! offset = Some p → (bit < 32)%nat →
  getBit d offset bit = Some (Z.testbit p (Z.of_nat bit)).
Proof.
  intros Hp Hb. unfold getBit, peek. rewrite Hp. simpl.
  rewrite shl_Some by done. simpl. f_equal.
  rewrite Z.shiftl_1_l. rewrite Z.land_comm.
  change (2 ^ Z.of_nat bit) with (Z.pow 2 (Z.of_nat bit)).
  destruct (Z.testbit p (Z.of_nat bit)) eqn:Hbit.
  - apply negb_true_iff, Z.eqb_neq. intros H0.
    apply (f_equal (λ x, Z.testbit x (Z.of_nat bit))) in H0.
    rewrite Z.land_spec, Hbit, Z.pow2_bits_true, Z.bits_0 in H0 by lia.
    discriminate.
  - apply negb_false_iff, Z.eqb_eq. apply Z.bits_inj'. intros k Hk.
    rewrite Z.land_spec, Z.bits_0.
    destruct (decide (k = Z.of_nat bit)) as [->|Hne].
    + by rewrite Hbit.
    + rewrite Z.pow2_bits_false by lia. apply andb_false_r.
Qed.

Lemma setBit_byte d offset bit value p :
  d !! offset = Some p → (bit < 32)%nat →
  setBit d offset bit value =
  Some (<[offset := uint8_t (if value
                             then Z.lor p (1 ≪ Z.of_nat bit)
                             else Z.land p (Z.lnot (1 ≪ Z.of_nat bit)))]> d).
Proof.
  intros Hp Hb. unfold setBit, peek. rewrite Hp. simpl.
  rewrite shl_Some by done. simpl.
  assert (offset < length d)%nat by by eapply lookup_lt_Some.
  destruct value; by rewrite poke_Some.
Qed.

Lemma testbit_written_bit p (bit k : Z) (value : bool) :
  0 ≤ bit → 0 ≤ k < 8 →
  Z.testbit (uint8_t (if value then Z.lor p (1 ≪ bit)
                      else Z.land p (Z.lnot (1 ≪ bit)))) k
  = if decide (k = bit) then value else Z.testbit p k.
Proof.
  intros Hb Hk. unfold uint8_t. rewrite Z.testbit_mod_pow2 by lia.
  replace (k <? 8) with true by (symmetry; apply Z.ltb_lt; lia). simpl.
  rewrite Z.shiftl_1_l.
  destruct value; rewrite ?Z.lor_spec, ?Z.land_spec, ?Z.lnot_spec by lia;
    case_decide as Hkb.
  - subst. rewrite Z.pow2_bits_true by lia. apply orb_true_r.
  - rewrite Z.pow2_bits_false by lia. apply orb_false_r.
  - subst. rewrite Z.pow2_bits_true by lia. apply andb_false_r.
  - rewrite Z.pow2_bits_false by lia. apply andb_true_r.
Qed.

(** Property X1.  For a byte inside the buffer and a bit position below
    8, [setBit] is defined, [getBit] then returns the value written,
    every other bit of the byte reads as it did before, and [clearBit]
    does what [setBit] does with [false]. *)
Theorem getBit_setBit (d : list Z) (offset bit : nat) (value : bool) :
  (offset < length d)%nat → (bit < 8)%nat →
  ∃ d', setBit d offset bit value = Some d'
        ∧ getBit d' offset bit = Some value
        ∧ (∀ bit' : nat, (bit' < 8)%nat → bit' ≠ bit →
             getBit d' offset bit' = getBit d offset bit')
        ∧ clearBit d offset bit = setBit d offset bit false.
Proof.
  intros Ho Hb. destruct (peek_Some d offset Ho) as [p Hp]. unfold peek in Hp.
  rewrite (setBit_byte d offset bit value p) by (done || lia).
  eexists. split; [done|]. split; [|split].
  - rewrite (getBit_testbit _ offset bit _ (list_lookup_insert_eq _ _ _ Ho))
      by lia.
    f_equal. rewrite testbit_written_bit by lia. by rewrite decide_True.
  - intros bit' Hb' Hne.
    rewrite (getBit_testbit _ offset bit' _ (list_lookup_insert_eq _ _ _ Ho))
      by lia.
    rewrite (getBit_testbit d offset bit' p) by (done || lia).
    f_equal. rewrite testbit_written_bit by lia. rewrite decide_False; [done|lia].
  - done.
Qed.

Lemma getBit_setBit_witness :
  ∃ d', setBit [0x50; 0x0f] 1 6 true = Some d'
        ∧ getBit d' 1 6 = Some true ∧ getBit d' 1 0 = Some true.
Proof.
  destruct (getBit_setBit [0x50; 0x0f] 1 6 true) as (d' & Hs & Hg & Ho & _);
    [simpl; lia|lia|].
  exists d'. split; [exact Hs|]. split; [exact Hg|].
  rewrite (Ho 0%nat); [reflexivity|lia|lia].
Defined.

(** Property X2.  A bit position from 8 to 31 names no bit of the byte:
    the mask [1 << bit] lies above it.  On a buffer of bytes [setBit] and
    [clearBit] then return the buffer unchanged, and [getBit] returns
    [false]. *)
Theorem setBit_above_byte (d : list Z) (offset bit : nat) (value : bool) :
  Forall is_byte d → (offset < length d)%nat → (8 ≤ bit < 32)%nat →
  setBit d offset bit value = Some d
  ∧ clearBit d offset bit = Some d
  ∧ getBit d offset bit = Some false.
Proof.
  intros Hd Ho Hb. destruct (peek_Some d offset Ho) as [p Hp]. unfold peek in Hp.
  assert (is_byte p) as Hbyte by by eapply Forall_lookup_1.
  assert (∀ v : bool,
            uint8_t (if v then Z.lor p (1 ≪ Z.of_nat bit)
                     else Z.land p (Z.lnot (1 ≪ Z.of_nat bit))) = p) as Hsame.
  { intros v. apply Z.bits_inj'. intros k Hk.
    destruct (decide (k < 8)) as [Hlt|Hge].
    - rewrite testbit_written_bit by lia. rewrite decide_False; [done|lia].
    - unfold uint8_t. rewrite Z.testbit_mod_pow2 by lia.
      replace (k <? 8) with false by (symmetry; apply Z.ltb_ge; lia). simpl.
      symmetry. apply (Z.bits_above_log2 p k); [unfold is_byte in *; lia|].
      unfold is_byte in Hbyte. destruct (decide (p = 0)) as [->|]; [simpl; lia|].
      apply Z.log2_lt_pow2; [lia|]. 
      apply Z.lt_le_trans with (2 ^ 8); [lia|]. apply Z.pow_le_mono_r; lia. }
  assert (setBit d offset bit value = Some d) as Hset.
  { rewrite (setBit_byte d offset bit value p) by (done || lia).
    by rewrite Hsame, list_insert_id. }
  split; [done|]. split.
  - change (clearBit d offset bit) with (setBit d offset bit false).
    rewrite (setBit_byte d offset bit false p) by (done || lia).
    by rewrite (Hsame false), list_insert_id.
  - rewrite (getBit_testbit d offset bit p) by (done || lia). f_equal.
    unfold is_byte in Hbyte. destruct (decide (p = 0)) as [->|]; [apply Z.bits_0|].
    apply Z.bits_above_log2; [lia|]. apply Z.log2_lt_pow2; [lia|].
    apply Z.lt_le_trans with (2 ^ 8); [lia|]. apply Z.pow_le_mono_r; lia.
Qed.

Lemma setBit_above_byte_witness :
  setBit [0x50; 0x0f] 1 9 true = Some [0x50; 0x0f]
  ∧ getBit [0x50; 0x0f] 1 9 = Some false.
Proof.
  destruct (setBit_above_byte [0x50; 0x0f] 1 9 true) as (Hs & _ & Hg).
  - repeat constructor; unfold is_byte; lia.
  - simpl. lia.
  - lia.
  - split; [exact Hs|exact Hg].
Defined.

(** ** Sub-byte fields side by side *)

Lemma subByteFields_inv N get set :
  (N, get, set) ∈ subByteFields →
  get = getField (Z.ones (Z.of_nat N)) ∧ set = setField (Z.ones (Z.of_nat N))
  ∧ (2 ≤ N ≤ 6)%nat.
Proof.
  intros Hin. unfold subByteFields in Hin.
  repeat (apply elem_of_cons in Hin as [Hin|Hin];
          [injection Hin as -> -> ->; repeat split; lia|]).
  by apply elem_of_nil in Hin.
Qed.

Lemma getField_byte mask d offset bit p :
  d !! offset = Some p → (bit < 32)%nat →
  getField mask d offset bit = Some (uint8_t (Z.land (p ≫ Z.of_nat bit) mask)).
Proof.
  intros Hp Hb. unfold getField, peek. rewrite Hp. simpl.
  by rewrite shr_Some.
Qed.

(** A field is read off its own bits. *)
Lemma getField_agree (n b : nat) p p' :
  (∀ k, Z.of_nat b ≤ k < Z.of_nat b + Z.of_nat n →
        Z.testbit p' k = Z.testbit p k) →
  uint8_t (Z.land (p' ≫ Z.of_nat b) (Z.ones (Z.of_nat n)))
  = uint8_t (Z.land (p ≫ Z.of_nat b) (Z.ones (Z.of_nat n))).
Proof.
  intros Hbits. unfold uint8_t. apply Z.bits_inj'. intros k Hk. bits.
  destruct (Z.ltb_spec k (Z.of_nat n)); [|by rewrite !andb_false_r].
  rewrite Hbits by lia. done.
Qed.

(** Property X3.  Two fields of the same byte that do not overlap are
    independent.  Writing the first with any of [setUInt2] to [setUInt6]
    leaves the value any of [getUInt2] to [getUInt6] reads from the second
    as it was, and so every bit outside the written field; [setBit] on a
    bit outside a field leaves the value of the field as it was. *)
Theorem disjoint_fields_independent N1 get1 set1 N2 get2 set2 :
  (N1, get1, set1) ∈ subByteFields → (N2, get2, set2) ∈ subByteFields →
  ∀ (d : list Z) (offset b1 b2 : nat) (v : Z),
    (offset < length d)%nat → (b1 + N1 ≤ 8)%nat → (b2 + N2 ≤ 8)%nat →
    (b1 + N1 ≤ b2 ∨ b2 + N2 ≤ b1)%nat →
    (∃ d', set1 d offset b1 v = Some d'
           ∧ get2 d' offset b2 = get2 d offset b2
           ∧ ∀ bit : nat, (bit < 8)%nat → (bit < b1 ∨ b1 + N1 ≤ bit)%nat →
               getBit d' offset bit = getBit d offset bit)
    ∧ ∀ (bit : nat) (value : bool),
        (bit < 8)%nat → (bit < b2 ∨ b2 + N2 ≤ bit)%nat →
        ∃ d', setBit d offset bit value = Some d'
              ∧ get2 d' offset b2 = get2 d offset b2.
Proof.
  intros (_ & -> & HN1)%subByteFields_inv (-> & _ & HN2)%subByteFields_inv.
  intros d offset b1 b2 v Ho Hb1 Hb2 Hdisj.
  destruct (setField_spec N1 d offset b1 v Ho) as (p & Hp & Hset); [lia|].
  split.
  - eexists. split; [exact Hset|]. split.
    + rewrite (getField_byte _ _ offset b2 _ (list_lookup_insert_eq _ _ _ Ho))
        by lia.
      rewrite (getField_byte _ d offset b2 p) by (done || lia). f_equal.
      apply getField_agree. intros k Hk. apply field_write_frame; lia.
    + intros bit Hbit Hout.
      rewrite (getBit_testbit _ offset bit _ (list_lookup_insert_eq _ _ _ Ho))
        by lia.
      rewrite (getBit_testbit d offset bit p) by (done || lia). f_equal.
      apply field_write_frame; lia.
  - intros bit value Hbit Hout.
    rewrite (setBit_byte d offset bit value p) by (done || lia).
    eexists. split; [done|].
    rewrite (getField_byte _ _ offset b2 _ (list_lookup_insert_eq _ _ _ Ho))
      by lia.
    rewrite (getField_byte _ d offset b2 p) by (done || lia). f_equal.
    apply getField_agree. intros k Hk. rewrite testbit_written_bit by lia.
    rewrite decide_False; [done|lia].
Qed.

Lemma disjoint_fields_independent_witness :
  ∃ d', setUInt4 [0xa5] 0 4 0x3 = Some d'
        ∧ getUInt4 d' 0 0 = Some 0x5 ∧ getUInt4 d' 0 4 = Some 0x3.
Proof.
  destruct (disjoint_fields_independent 4 getUInt4 setUInt4 4 getUInt4 setUInt4)
    with (d := [0xa5]) (offset := 0%nat) (b1 := 4%nat) (b2 := 0%nat) (v := 0x3)
    as [(d' & Hs & Hg & _) _].
  - unfold subByteFields. set_solver.
  - unfold subByteFields. set_solver.
  - simpl. lia.
  - lia.
  - lia.
  - lia.
  - exists d'. split; [exact Hs|]. split; [rewrite Hg; reflexivity|].
    injection Hs as <-. reflexivity.
Defined.

(** Property X4.  The last write wins: writing [v1] and then [v2] into
    the same sub-byte field leaves the buffer that writing [v2] alone
    leaves, at every bit position below 32. *)
Theorem setUIntN_overwrite N get set :
  (N, get, set) ∈ subByteFields →
  ∀ (d : list Z) (offset b : nat) (v1 v2 : Z),
    (offset < length d)%nat → (b < 32)%nat →
    ∃ d1, set d offset b v1 = Some d1
          ∧ set d1 offset b v2 = set d offset b v2.
Proof.
  intros (_ & -> & HN)%subByteFields_inv d offset b v1 v2 Ho Hb.
  destruct (setField_spec N d offset b v1 Ho Hb) as (p & Hp & Hset1).
  destruct (setField_spec N d offset b v2 Ho Hb) as (p' & Hp' & Hset2).
  assert (p' = p) as -> by congruence.
  eexists. split; [exact Hset1|].
  match goal with |- setField _ ?d1 _ _ _ = _ =>
    destruct (setField_spec N d1 offset b v2) as (q & Hq & Hset12);
      [by rewrite length_insert|done|]
  end.
  rewrite list_lookup_insert_eq in Hq by done. injection Hq as <-.
  rewrite Hset12, Hset2, list_insert_insert_eq. do 2 f_equal.
  unfold uint8_t. apply Z.bits_inj'. intros k Hk. bits.
  destruct (Z.ltb_spec k 8); [|done]. simpl.
  case_cmp; simpl; rewrite ?andb_false_r, ?andb_true_r, ?orb_false_r; try done.
  all: repeat match goal with
         | |- context [Z.testbit ?x ?i] => destruct (Z.testbit x i)
         end; done.
Qed.

Lemma setUIntN_overwrite_witness :
  ∃ d1, setUInt5 [0xff] 0 1 0x1f = Some d1
        ∧ setUInt5 d1 0 1 0x02 = Some [0xc5].
Proof.
  destruct (setUIntN_overwrite 5 getUInt5 setUInt5)
    with (d := [0xff]) (offset := 0%nat) (b := 1%nat) (v1 := 0x1f) (v2 := 0x02)
    as (d1 & Hs & Hover).
  - unfold subByteFields. set_solver.
  - simpl. lia.
  - lia.
  - exists d1. split; [exact Hs|]. rewrite Hover. reflexivity.
Defined.

(** ** Reading what is there, and writing it back *)

Lemma peeks_Some d p n : (p + n ≤ length d)%nat → ∃ bs, peeks d p n = Some bs.
Proof. intros. unfold peeks. rewrite decide_True by done. by eexists. Qed.

Lemma peeks_prefix d p n m bs :
  peeks d p n = Some bs → (m ≤ n)%nat → peeks d p m = Some (take m bs).
Proof.
  intros (Hp & _ & ->)%peeks_inv Hm. unfold peeks.
  rewrite decide_True by lia. by rewrite take_take, Nat.min_l.
Qed.

Lemma peeks_is_byte d p n bs :
  Forall is_byte d → peeks d p n = Some bs → Forall is_byte bs.
Proof.
  intros Hd (_ & _ & ->)%peeks_inv. by apply Forall_take, Forall_drop.
Qed.

(** Two buffers that differ in a field at most and hold the same bytes
    there are the same buffer. *)
Lemma modifies_only_same_field p w d d' bs :
  modifies_only p w d d' → peeks d p w = Some bs → peeks d' p w = Some bs →
  d' = d.
Proof.
  intros [Hl Hout] Hd Hd'. apply list_eq. intros j.
  destruct (decide (p ≤ j < p + w)%nat) as [Hin|Hnin]; [|by apply Hout].
  replace j with (p + (j - p))%nat by lia.
  rewrite (peeks_lookup _ _ _ _ _ Hd), (peeks_lookup _ _ _ _ _ Hd') by lia.
  done.
Qed.

Lemma pokes_peeks_id d p n bs : peeks d p n = Some bs → pokes d p bs = Some d.
Proof.
  intros Hd. pose proof Hd as (Hp & Hl & _)%peeks_inv. subst n.
  rewrite pokes_Some by done. f_equal.
  eapply modifies_only_same_field; [|exact Hd|].
  - apply pokes_modifies. by apply pokes_Some.
  - apply (peeks_pokes d). by apply pokes_Some.
Qed.

Lemma is_byte_list4 b0 b1 b2 b3 :
  Forall is_byte [b0; b1; b2; b3] →
  is_byte b0 ∧ is_byte b1 ∧ is_byte b2 ∧ is_byte b3.
Proof.
  intros H. repeat (apply Forall_cons in H as [? H]). done.
Qed.

(** Property X5.  What the getters make of any four bytes [b0 b1 b2 b3]
    at the offset, whatever wrote them and on either host: [getUInt8]
    returns [b0]; the [_be] getters take the first byte as the most
    significant one, the [_le] getters as the least significant one, over
    two, three and four bytes. *)
Theorem getters_decode host (d : list Z) (offset : nat) (b0 b1 b2 b3 : Z) :
  peeks d offset 4 = Some [b0; b1; b2; b3] → Forall is_byte [b0; b1; b2; b3] →
  getUInt8 d offset = Some b0
  ∧ getUInt16_be host d offset = Some (b0 * 2 ^ 8 + b1)
  ∧ getUInt16_le host d offset = Some (b1 * 2 ^ 8 + b0)
  ∧ getUInt24_be d offset = Some (b0 * 2 ^ 16 + b1 * 2 ^ 8 + b2)
  ∧ getUInt24_le d offset = Some (b2 * 2 ^ 16 + b1 * 2 ^ 8 + b0)
  ∧ getUInt32_be host d offset
    = Some (b0 * 2 ^ 24 + b1 * 2 ^ 16 + b2 * 2 ^ 8 + b3)
  ∧ getUInt32_le host d offset
    = Some (b3 * 2 ^ 24 + b2 * 2 ^ 16 + b1 * 2 ^ 8 + b0).
Proof.
  intros Hd Hb. pose proof (is_byte_list4 _ _ _ _ Hb) as (H0 & H1 & H2 & H3).
  unfold is_byte in *.
  pose proof (peeks_prefix _ _ _ 2 _ Hd ltac:(lia)) as Hd2. simpl in Hd2.
  pose proof (peeks_lookup _ _ _ _ 0 Hd ltac:(lia)) as L0.
  pose proof (peeks_lookup _ _ _ _ 1 Hd ltac:(lia)) as L1.
  pose proof (peeks_lookup _ _ _ _ 2 Hd ltac:(lia)) as L2.
  rewrite Nat.add_0_r in L0. simpl in L0, L1, L2.
  assert (Forall is_byte [b0; b1]) as Hb2
    by (repeat constructor; unfold is_byte; lia).
  split; [exact L0|]. split; [|split; [|split; [|split; [|split]]]].
  - rewrite (getUInt16_be_peeks host d offset _ Hb2 Hd2). simpl. f_equal. lia.
  - rewrite (getUInt16_le_peeks host d offset _ Hb2 Hd2). simpl. f_equal. lia.
  - unfold getUInt24_be, peek. rewrite L0, L1, L2. simpl. f_equal.
    unfold uint32_t. rewrite !Z.shiftl_mul_pow2 by lia.
    rewrite Z.mod_small; lia.
  - unfold getUInt24_le, peek. rewrite L0, L1, L2. simpl. f_equal.
    unfold uint32_t. rewrite !Z.shiftl_mul_pow2 by lia.
    rewrite Z.mod_small; lia.
  - rewrite (getUInt32_be_peeks host d offset _ Hb Hd). simpl. f_equal. lia.
  - rewrite (getUInt32_le_peeks host d offset _ Hb Hd). simpl. f_equal. lia.
Qed.

Lemma getters_decode_witness :
  getUInt16_be LittleEndian [0x12; 0x34; 0x56; 0x78] 0 = Some 0x1234
  ∧ getUInt24_le [0x12; 0x34; 0x56; 0x78] 0 = Some 0x563412
  ∧ getUInt32_le BigEndian [0x12; 0x34; 0x56; 0x78] 0 = Some 0x78563412.
Proof.
  assert (Forall is_byte [0x12; 0x34; 0x56; 0x78]) as Hb
    by (repeat constructor; unfold is_byte; lia).
  split; [|split].
  - apply (getters_decode LittleEndian [0x12; 0x34; 0x56; 0x78] 0
             0x12 0x34 0x56 0x78 eq_refl Hb).
  - apply (getters_decode LittleEndian [0x12; 0x34; 0x56; 0x78] 0
             0x12 0x34 0x56 0x78 eq_refl Hb).
  - apply (getters_decode BigEndian [0x12; 0x34; 0x56; 0x78] 0
             0x12 0x34 0x56 0x78 eq_refl Hb).
Defined.

Lemma poke3_id d p x0 x1 x2 b0 b1 b2 :
  peeks d p 3 = Some [b0; b1; b2] →
  uint8_t x0 = b0 → uint8_t x1 = b1 → uint8_t x2 = b2 →
  (d0 ← poke d p x0; d1 ← poke d0 (p + 1) x1; poke d1 (p + 2) x2) = Some d.
Proof.
  intros Hd E0 E1 E2. pose proof Hd as (Hp & _ & _)%peeks_inv.
  destruct (poke3 d p x0 x1 x2 Hp) as (d' & -> & Hd' & Hm). f_equal.
  eapply modifies_only_same_field; [exact Hm|exact Hd|].
  by rewrite Hd', E0, E1, E2.
Qed.

Section WideRestore.
Variables (host : ByteOrder) (d : list Z) (p : nat) (bs : list Z).
Hypothesis Hbs : Forall is_byte bs.

Lemma setUInt16_be_restore :
  peeks d p 2 = Some bs → setUInt16_be host d p (le_value (rev bs)) = Some d.
Proof.
  intros Hd. pose proof Hd as (_ & Hl & _)%peeks_inv.
  unfold setUInt16_be, store, uint16_t. rewrite host_bytes_to_be.
  rewrite (le_bytes_mod 2). rewrite <- Hl, <- length_rev.
  rewrite le_bytes_le_value by by apply Forall_rev.
  rewrite rev_involutive. by eapply pokes_peeks_id.
Qed.
Lemma setUInt16_le_restore :
  peeks d p 2 = Some bs → setUInt16_le host d p (le_value bs) = Some d.
Proof.
  intros Hd. pose proof Hd as (_ & Hl & _)%peeks_inv.
  unfold setUInt16_le, store, uint16_t. rewrite host_bytes_to_le.
  rewrite (le_bytes_mod 2). rewrite <- Hl.
  rewrite le_bytes_le_value by done. by eapply pokes_peeks_id.
Qed.
Lemma setUInt32_be_restore :
  peeks d p 4 = Some bs → setUInt32_be host d p (le_value (rev bs)) = Some d.
Proof.
  intros Hd. pose proof Hd as (_ & Hl & _)%peeks_inv.
  unfold setUInt32_be, store, uint32_t. rewrite host_bytes_to_be.
  rewrite (le_bytes_mod 4). rewrite <- Hl, <- length_rev.
  rewrite le_bytes_le_value by by apply Forall_rev.
  rewrite rev_involutive. by eapply pokes_peeks_id.
Qed.
Lemma setUInt32_le_restore :
  peeks d p 4 = Some bs → setUInt32_le host d p (le_value bs) = Some d.
Proof.
  intros Hd. pose proof Hd as (_ & Hl & _)%peeks_inv.
  unfold setUInt32_le, store, uint32_t. rewrite host_bytes_to_le.
  rewrite (le_bytes_mod 4). rewrite <- Hl.
  rewrite le_bytes_le_value by done. by eapply pokes_peeks_id.
Qed.
End WideRestore.

(** Property X6.  Writing back what a getter returned changes nothing:
    on a buffer of bytes with four of them at the offset, each of
    [setUInt8], [setUInt16_be/_le], [setUInt24_be/_le] and
    [setUInt32_be/_le], given the value of its getter, returns the same
    buffer, on either host. *)
Theorem setters_restore host (d : list Z) (offset : nat) :
  Forall is_byte d → (offset + 4 ≤ length d)%nat →
  (∃ v, getUInt8 d offset = Some v ∧ setUInt8 d offset v = Some d)
  ∧ (∃ v, getUInt16_be host d offset = Some v
          ∧ setUInt16_be host d offset v = Some d)
  ∧ (∃ v, getUInt16_le host d offset = Some v
          ∧ setUInt16_le host d offset v = Some d)
  ∧ (∃ v, getUInt24_be d offset = Some v ∧ setUInt24_be d offset v = Some d)
  ∧ (∃ v, getUInt24_le d offset = Some v ∧ setUInt24_le d offset v = Some d)
  ∧ (∃ v, getUInt32_be host d offset = Some v
          ∧ setUInt32_be host d offset v = Some d)
  ∧ (∃ v, getUInt32_le host d offset = Some v
          ∧ setUInt32_le host d offset v = Some d).
Proof.
  intros Hwf Hlen.
  destruct (peeks_Some d offset 4 Hlen) as [bs Hd].
  pose proof (peeks_is_byte _ _ _ _ Hwf Hd) as Hb.
  pose proof Hd as (_ & Hl & _)%peeks_inv.
  destruct bs as [|b0 [|b1 [|b2 [|b3 [|]]]]]; try discriminate Hl.
  pose proof (is_byte_list4 _ _ _ _ Hb) as (H0 & H1 & H2 & H3).
  pose proof (peeks_prefix _ _ _ 2 _ Hd ltac:(lia)) as Hd2.
  pose proof (peeks_prefix _ _ _ 3 _ Hd ltac:(lia)) as Hd3.
  pose proof (peeks_prefix _ _ _ 1 _ Hd ltac:(lia)) as Hd1.
  simpl in Hd1, Hd2, Hd3.
  assert (Forall is_byte [b0; b1]) as Hb2 by (by repeat apply Forall_cons_2).
  assert (Forall is_byte [b0; b1; b2]) as Hb3
    by (by repeat apply Forall_cons_2).
  pose proof (peeks_lookup _ _ _ _ 0 Hd ltac:(lia)) as L0.
  pose proof (peeks_lookup _ _ _ _ 1 Hd ltac:(lia)) as L1.
  pose proof (peeks_lookup _ _ _ _ 2 Hd ltac:(lia)) as L2.
  rewrite Nat.add_0_r in L0. simpl in L0, L1, L2.
  split; [|split; [|split; [|split; [|split; [|split]]]]].
  - exists b0. split; [exact L0|]. unfold setUInt8. rewrite poke_Some by lia.
    f_equal. unfold uint8_t. unfold is_byte in H0. rewrite Z.mod_small by lia.
    by apply list_insert_id.
  - eexists. split; [apply (getUInt16_be_peeks host d offset _ Hb2 Hd2)|].
    by apply setUInt16_be_restore.
  - eexists. split; [apply (getUInt16_le_peeks host d offset _ Hb2 Hd2)|].
    by apply setUInt16_le_restore.
  - unfold is_byte in *. eexists. split.
    + unfold getUInt24_be, peek. rewrite L0, L1, L2. simpl. reflexivity.
    + unfold setUInt24_be.
      set (v := uint32_t (b2 + b1 ≪ 8 + b0 ≪ 16)).
      assert (v = b0 * 2 ^ 16 + b1 * 2 ^ 8 + b2) as Hv.
      { unfold v, uint32_t. rewrite !Z.shiftl_mul_pow2 by lia.
        rewrite Z.mod_small; lia. }
      apply (poke3_id d offset _ _ _ b0 b1 b2 Hd3);
        rewrite byte_of_shift by lia; rewrite Hv;
        Z.to_euclidean_division_equations; lia.
  - unfold is_byte in *. eexists. split.
    + unfold getUInt24_le, peek. rewrite L0, L1, L2. simpl. reflexivity.
    + unfold setUInt24_le.
      set (v := uint32_t (b0 + b1 ≪ 8 + b2 ≪ 16)).
      assert (v = b2 * 2 ^ 16 + b1 * 2 ^ 8 + b0) as Hv.
      { unfold v, uint32_t. rewrite !Z.shiftl_mul_pow2 by lia.
        rewrite Z.mod_small; lia. }
      apply (poke3_id d offset _ _ _ b0 b1 b2 Hd3);
        rewrite byte_of_shift by lia; rewrite Hv;
        Z.to_euclidean_division_equations; lia.
  - eexists. split; [apply (getUInt32_be_peeks host d offset _ Hb Hd)|].
    by apply setUInt32_be_restore.
  - eexists. split; [apply (getUInt32_le_peeks host d offset _ Hb Hd)|].
    by apply setUInt32_le_restore.
Qed.

Lemma setters_restore_witness :
  ∃ v, getUInt24_be [0x12; 0x34; 0x56; 0x78] 0 = Some v
       ∧ setUInt24_be [0x12; 0x34; 0x56; 0x78] 0 v
         = Some [0x12; 0x34; 0x56; 0x78].
Proof.
  destruct (setters_restore LittleEndian [0x12; 0x34; 0x56; 0x78] 0)
    as (_ & _ & _ & H24 & _).
  - repeat constructor; unfold is_byte; lia.
  - simpl. lia.
  - exact H24.
Defined.

(** ** Binary-coded decimals, byte by byte *)




Lemma bcdByte_join lo hi : 0 ≤ lo < 10 → 0 ≤ hi < 10 → bcdByte (lo + 16 * hi).
Proof.
  intros Hlo Hhi. unfold bcdByte.
  rewrite (Z.mul_comm 16), Z.mod_add, Z.div_add by lia.
  rewrite Z.mod_small, Z.div_small by lia. lia.
Qed.


Lemma le_bytes_nibbles n lo hi rest :
  0 ≤ lo < 16 → 0 ≤ hi < 16 →
  le_bytes (S n) (lo + 16 * (hi + 16 * rest)) = (lo + 16 * hi) :: le_bytes n rest.
Proof.
  intros Hlo Hhi. simpl.
  replace (lo + 16 * (hi + 16 * rest)) with (lo + 16 * hi + rest * 256) by ring.
  rewrite Z.mod_add, Z.div_add by lia.
  rewrite Z.mod_small, Z.div_small by lia. done.
Qed.


Section Digits4.
Variables n0 n1 n2 n3 : Z.


End Digits4.

Section Digits8.
Variables n0 n1 n2 n3 n4 n5 n6 n7 : Z.


End Digits8.

Lemma packBCD4_nibbles v :
  ∃ n0 n1 n2 n3,
    (0 ≤ n0 < 10 ∧ 0 ≤ n1 < 10 ∧ 0 ≤ n2 < 10 ∧ 0 ≤ n3 < 10)
    ∧ packBCD4 v = n0 + 16 * (n1 + 16 * (n2 + 16 * (n3 + 16 * 0))).
Proof.
  unfold packBCD4, uint32_t.
  exists ((v / 1) mod 10), ((v / 10) mod 10), ((v / 100) mod 10),
    ((v / 1000) mod 10).
  pose proof (Z.mod_pos_bound (v / 1) 10 eq_refl).
  pose proof (Z.mod_pos_bound (v / 10) 10 eq_refl).
  pose proof (Z.mod_pos_bound (v / 100) 10 eq_refl).
  pose proof (Z.mod_pos_bound (v / 1000) 10 eq_refl).
  split; [done|]. drop_casts. rewrite !Z.shiftl_mul_pow2 by lia. lia.
Qed.

Lemma packBCD8_nibbles v :
  ∃ n0 n1 n2 n3 n4 n5 n6 n7,
    (0 ≤ n0 < 10 ∧ 0 ≤ n1 < 10 ∧ 0 ≤ n2 < 10 ∧ 0 ≤ n3 < 10
     ∧ 0 ≤ n4 < 10 ∧ 0 ≤ n5 < 10 ∧ 0 ≤ n6 < 10 ∧ 0 ≤ n7 < 10)
    ∧ packBCD8 v
      = n0 + 16 * (n1 + 16 * (n2 + 16 * (n3 + 16 * (n4 + 16 * (n5 + 16 *
              (n6 + 16 * (n7 + 16 * 0))))))).
Proof.
  unfold packBCD8, uint32_t.
  exists ((v / 1) mod 10), ((v / 10) mod 10), ((v / 100) mod 10),
    ((v / 1000) mod 10), ((v / 10000) mod 10), ((v / 100000) mod 10),
    ((v / 1000000) mod 10), ((v / 10000000) mod 10).
  pose proof (Z.mod_pos_bound (v / 1) 10 eq_refl).
  pose proof (Z.mod_pos_bound (v / 10) 10 eq_refl).
  pose proof (Z.mod_pos_bound (v / 100) 10 eq_refl).
  pose proof (Z.mod_pos_bound (v / 1000) 10 eq_refl).
  pose proof (Z.mod_pos_bound (v / 10000) 10 eq_refl).
  pose proof (Z.mod_pos_bound (v / 100000) 10 eq_refl).
  pose proof (Z.mod_pos_bound (v / 1000000) 10 eq_refl).
  pose proof (Z.mod_pos_bound (v / 10000000) 10 eq_refl).
  split; [done|]. drop_casts. rewrite !Z.shiftl_mul_pow2 by lia. lia.
Qed.

Lemma le_bytes_packBCD4 v : Forall bcdByte (le_bytes 2 (packBCD4 v)).
Proof.
  destruct (packBCD4_nibbles v) as (n0 & n1 & n2 & n3 & Hn & ->).
  rewrite !le_bytes_nibbles by lia. repeat constructor; apply bcdByte_join; lia.
Qed.

Lemma le_bytes_packBCD8 v : Forall bcdByte (le_bytes 4 (packBCD8 v)).
Proof.
  destruct (packBCD8_nibbles v)
    as (n0 & n1 & n2 & n3 & n4 & n5 & n6 & n7 & Hn & ->).
  rewrite !le_bytes_nibbles by lia. repeat constructor; apply bcdByte_join; lia.
Qed.

(** Property X8.  The BCD setters store decimal digits only.  Whatever
    the value, with the field inside the buffer the write is defined and
    each nibble of each written byte is at most 9, for [setBCD2],
    [setBCD4_be/_le] and [setBCD8_be/_le] on either host. *)
Theorem setBCD_stores_digits host (d : list Z) (offset : nat) (v : Z) :
  storesDigits 1 d offset (setBCD2 d offset v)
  ∧ storesDigits 2 d offset (setBCD4_be host d offset v)
  ∧ storesDigits 2 d offset (setBCD4_le host d offset v)
  ∧ storesDigits 4 d offset (setBCD8_be host d offset v)
  ∧ storesDigits 4 d offset (setBCD8_le host d offset v).
Proof.
  split; [|split; [|split; [|split]]]; intros Hlen.
  - unfold setBCD2, setUInt8. rewrite poke_Some by lia.
    eexists _, [_]. split; [done|]. split.
    + apply (peeks_intro _ _ [_]); [rewrite length_insert; simpl; lia|].
      intros [|i] Hi; simpl in Hi; [|lia]. rewrite Nat.add_0_r. simpl.
      apply list_lookup_insert_eq. lia.
    + constructor; [|constructor]. unfold uint8_t.
      pose proof (Z.mod_pos_bound (v mod 2 ^ 8 / 10) 10 eq_refl).
      pose proof (Z.mod_pos_bound (v mod 2 ^ 8 / 1) 10 eq_refl).
      drop_casts. rewrite Z.shiftl_mul_pow2 by lia.
      replace ((v mod 2 ^ 8 / 10) mod 10 * 2 ^ 4 + (v mod 2 ^ 8 / 1) mod 10)
        with ((v mod 2 ^ 8 / 1) mod 10 + 16 * ((v mod 2 ^ 8 / 10) mod 10))
        by lia.
      apply bcdByte_join; lia.
  - destruct (setUInt16_be_bytes host d offset (packBCD4 (uint16_t v)) Hlen)
      as (d' & Hs & Hb & _).
    exists d', (rev (le_bytes 2 (packBCD4 (uint16_t v)))).
    split; [exact Hs|]. split; [exact Hb|]. apply Forall_rev, le_bytes_packBCD4.
  - destruct (setUInt16_le_bytes host d offset (packBCD4 (uint16_t v)) Hlen)
      as (d' & Hs & Hb & _).
    exists d', (le_bytes 2 (packBCD4 (uint16_t v))).
    split; [exact Hs|]. split; [exact Hb|]. apply le_bytes_packBCD4.
  - destruct (setUInt32_be_bytes host d offset (packBCD8 (uint32_t v)) Hlen)
      as (d' & Hs & Hb & _).
    exists d', (rev (le_bytes 4 (packBCD8 (uint32_t v)))).
    split; [exact Hs|]. split; [exact Hb|]. apply Forall_rev, le_bytes_packBCD8.
  - destruct (setUInt32_le_bytes host d offset (packBCD8 (uint32_t v)) Hlen)
      as (d' & Hs & Hb & _).
    exists d', (le_bytes 4 (packBCD8 (uint32_t v))).
    split; [exact Hs|]. split; [exact Hb|]. apply le_bytes_packBCD8.
Qed.

Lemma setBCD_stores_digits_witness :
  ∃ d' bs, setBCD4_le BigEndian [0xff; 0xff; 0xff] 1 65535 = Some d'
           ∧ peeks d' 1 2 = Some bs ∧ Forall bcdByte bs.
Proof.
  destruct (setBCD_stores_digits BigEndian [0xff; 0xff; 0xff] 1 65535)
    as (_ & _ & Hle & _).
  apply Hle. simpl. lia.
Defined.






(** ** Text, whatever the string *)

Lemma untilStop_spec eos bs :
  ∃ rest, bs = untilStop eos bs ++ rest
          ∧ Forall (λ c, c ≠ 0 ∧ c ≠ eos) (untilStop eos bs)
          ∧ (rest = [] ∨ ∃ c rest', rest = c :: rest' ∧ (c = 0 ∨ c = eos)).
Proof.
  induction bs as [|c bs (rest & Hbs & Hok & Hend)]; simpl.
  - exists []. split; [done|]. split; [constructor|by left].
  - destruct (decide (c = 0)) as [->|H0].
    { exists (0 :: bs). split; [done|]. split; [constructor|]. right. eauto. }
    destruct (decide (c = eos)) as [->|He].
    { exists (eos :: bs). split; [done|]. split; [constructor|]. right. eauto. }
    exists rest. split; [simpl; by f_equal|]. split; [by constructor|done].
Qed.

(** Property X9.  What [readASCII] returns after [writeASCII], for every
    string: the Latin-1 bytes of its first [maxlen] characters (0 for a
    code unit above 0xff), up to the first of them that is null or the
    terminator.  Both calls are defined when [maxlen] bytes lie inside
    the buffer. *)
Theorem readASCII_writeASCII_any (d : list Z) (offset maxlen : nat)
    (s : list Z) (eos : Z) :
  (offset + maxlen ≤ length d)%nat → is_byte eos →
  ∃ d', writeASCII d offset s maxlen eos = Some d'
        ∧ readASCII d' offset maxlen eos
          = Some (untilStop eos (latin1Byte <$> take maxlen s)).
Proof.
  intros Hlen Heos. unfold writeASCII, readASCII.
  assert (uint8_t eos = eos) as Hcast by by apply Z.mod_small.
  rewrite Hcast.
  destruct (writeASCII_loop_spec s eos offset maxlen d 0) as (d' & Hw & Hd');
    [lia|].
  exists d'. split; [done|].
  set (img := latin1Byte <$> take maxlen s).
  assert (length img = min maxlen (length s)) as Himg
    by (unfold img; by rewrite length_fmap, length_take).
  assert (∀ j : nat, (j < length img)%nat →
            d' !! (offset + j)%nat = img !! j) as Hlook.
  { intros j Hj. rewrite Hd' by lia. unfold asciiAt, img.
    rewrite list_lookup_fmap, lookup_take_lt by lia.
    destruct (s !! j) eqn:Hs; [done|]. apply lookup_ge_None in Hs. lia. }
  destruct (untilStop_spec eos img) as (rest & Hsplit & Hok & Hend).
  generalize dependent (untilStop eos img). intros t Hsplit Hok.
  assert (length img = length t + length rest)%nat as Hlens
    by (by rewrite Hsplit, length_app).
  apply (readASCII_loop_spec d' offset eos t maxlen 0 []).
  - lia.
  - intros j Hj. rewrite Nat.add_0_r, Hlook by lia.
    by rewrite Hsplit, lookup_app_l.
  - done.
  - rewrite Nat.add_0_r. destruct Hend as [->|(c & rest' & -> & Hc)].
    + simpl in Hlens. rewrite Nat.add_0_r in Hlens.
      destruct (decide (maxlen ≤ length s)%nat); [left; lia|].
      right; right. rewrite Hd' by lia. unfold asciiAt.
      rewrite lookup_ge_None_2 by lia. by rewrite Hcast.
    + simpl in Hlens.
      assert (d' !! (offset + length t)%nat = Some c) as ->.
      { rewrite Hlook by lia. rewrite Hsplit.
        rewrite lookup_app_r by lia. by rewrite Nat.sub_diag. }
      destruct Hc as [->| ->]; auto.
Qed.

Lemma readASCII_writeASCII_any_witness :
  ∃ d', writeASCII [1; 2; 3; 4; 5] 1 [0x41; 0x20ac; 0x42] 3 0xff = Some d'
        ∧ readASCII d' 1 3 0xff = Some [0x41].
Proof.
  destruct (readASCII_writeASCII_any [1; 2; 3; 4; 5] 1 3 [0x41; 0x20ac; 0x42]
              0xff) as (d' & Hw & Hr).
  - simpl. lia.
  - unfold is_byte. lia.
  - exists d'. split; [exact Hw|exact Hr].
Defined.

(** ** Unicode text *)

Lemma host_value_host_bytes host n v :
  host_value host (host_bytes host n v) = v mod 256 ^ Z.of_nat n.
Proof.
  destruct host; simpl; rewrite ?rev_involutive; apply le_value_le_bytes.
Qed.

Lemma load_store_value host n d p v d' :
  store host n d p v = Some d' → load host n d' p = Some (v mod 256 ^ Z.of_nat n).
Proof.
  intros Hs%load_store. unfold load. rewrite Hs. simpl.
  by rewrite host_value_host_bytes.
Qed.

(** A load sees nothing of a write elsewhere. *)
Lemma peeks_frame q w d d' p n :
  modifies_only q w d d' → (p + n ≤ q ∨ q + w ≤ p)%nat →
  peeks d' p n = peeks d p n.
Proof.
  intros [Hl Hout] Hdisj. unfold peeks. rewrite Hl.
  case_decide; [|done]. f_equal. apply list_eq. intros j.
  destruct (decide (j < n)%nat).
  - rewrite !lookup_take_lt, !lookup_drop by done. apply Hout. lia.
  - by rewrite !lookup_take_ge by lia.
Qed.

Lemma load_frame host q w d d' p n :
  modifies_only q w d d' → (p + n ≤ q ∨ q + w ≤ p)%nat →
  load host n d' p = load host n d p.
Proof. intros Hm Hd. unfold load. by rewrite (peeks_frame q w d d'). Qed.

Lemma load_Some host n d p :
  (p + n ≤ length d)%nat → ∃ c, load host n d p = Some c.
Proof.
  intros Hp. destruct (peeks_Some d p n Hp) as [bs Hbs].
  unfold load. rewrite Hbs. by eexists.
Qed.

Lemma writeUnicode_loop_modifies host txt eos offset n : ∀ d i d',
  writeUnicode_loop host d offset txt eos n i = Some d' →
  modifies_only (offset + 2 * i) (2 * n) d d'.
Proof.
  induction n as [|n IH]; intros d i d' H; cbn [writeUnicode_loop] in H.
  - injection H as <-. apply modifies_only_refl.
  - destruct (match txt !! i with
              | Some u => store host 2 d (offset + 2 * i) u
              | None => store host 2 d (offset + 2 * i) eos
              end) as [d1|] eqn:Hd1; [|done]. cbn [mbind option_bind] in H.
    apply IH in H.
    apply modifies_only_trans with d1.
    + apply modifies_only_mono with (offset + 2 * i)%nat 2%nat; [lia..|].
      destruct (txt !! i); by eapply store_modifies.
    + apply modifies_only_mono with (offset + 2 * S i)%nat (2 * n)%nat;
        [lia..|done].
Qed.

Lemma writeUnicode_loop_spec host txt eos offset n : ∀ d i,
  (offset + 2 * (i + n) ≤ length d)%nat →
  ∃ d', writeUnicode_loop host d offset txt eos n i = Some d'
        ∧ ∀ j : nat, (i ≤ j < i + n)%nat →
            load host 2 d' (offset + 2 * j) = Some (unicodeAt txt eos j).
Proof.
  induction n as [|n IH]; intros d i Hlen; cbn [writeUnicode_loop].
  - eexists. split; [done|]. intros j Hj. lia.
  - assert (∃ d1, match txt !! i with
                  | Some u => store host 2 d (offset + 2 * i) u
                  | None => store host 2 d (offset + 2 * i) eos
                  end = Some d1
                  ∧ load host 2 d1 (offset + 2 * i) = Some (unicodeAt txt eos i)
                  ∧ length d1 = length d) as (d1 & -> & Hi & Hl).
    { unfold unicodeAt, uint16_t.
      destruct (txt !! i) as [u|];
        [destruct (store_bytes host 2 d (offset + 2 * i) u)
           as (d1 & Hs & _ & [Hl _])
        |destruct (store_bytes host 2 d (offset + 2 * i) eos)
           as (d1 & Hs & _ & [Hl _])]; try lia;
        exists d1; (split; [done|]); (split; [|done]);
        by rewrite (load_store_value _ _ _ _ _ _ Hs). }
    cbn [mbind option_bind].
    destruct (IH d1 (S i)) as (d' & Hw & Hj); [lia|].
    exists d'. split; [done|]. intros j Hj'.
    destruct (decide (j = i)) as [->|Hne]; [|apply Hj; lia].
    apply writeUnicode_loop_modifies in Hw.
    rewrite (load_frame host _ _ _ _ _ _ Hw) by lia. done.
Qed.

Lemma readUnicode_loop_spec host d offset eos t : ∀ n i acc,
  (length t ≤ n)%nat →
  (∀ j : nat, (j < length t)%nat →
     load host 2 d (offset + 2 * (i + j)) = t !! j) →
  Forall (λ c, c ≠ eos) t →
  (length t = n ∨ load host 2 d (offset + 2 * (i + length t)) = Some eos) →
  readUnicode_loop host d offset eos n i acc = Some (acc ++ t).
Proof.
  induction t as [|c t IH]; intros n i acc Hn Hj Hok Hend.
  - rewrite app_nil_r. destruct n as [|n]; [done|].
    cbn [readUnicode_loop length] in *.
    rewrite Nat.add_0_r in Hend. destruct Hend as [?| ->]; [lia|].
    cbn [mbind option_bind]. by rewrite decide_True.
  - destruct n as [|n]; cbn [length] in Hn; [lia|]. cbn [readUnicode_loop].
    apply Forall_cons in Hok as [Hce Hok].
    pose proof (Hj 0%nat ltac:(simpl; lia)) as H0.
    rewrite Nat.add_0_r in H0. rewrite H0.
    change ((c :: t) !! 0%nat) with (Some c). cbn [mbind option_bind].
    rewrite decide_False by congruence.
    rewrite (IH n (S i) (acc ++ [c])); [by rewrite <- app_assoc|lia| |done|].
    + intros j Hlt. specialize (Hj (S j) ltac:(simpl; lia)).
      change ((c :: t) !! S j) with (t !! j) in Hj.
      rewrite <- Hj. do 2 f_equal. lia.
    + cbn [length] in Hend.
      replace (S i + length t)%nat with (i + S (length t))%nat by lia.
      destruct Hend as [?|?]; [left; lia|by right].
Qed.

Lemma readUnicode_loop_inv host d offset eos n : ∀ i acc r,
  readUnicode_loop host d offset eos n i acc = Some r →
  ∃ t, r = acc ++ t ∧ stopsAt16 host d (offset + 2 * i) n eos t.
Proof.
  induction n as [|n IH]; intros i acc r H; cbn [readUnicode_loop] in H.
  - injection H as <-. exists []. rewrite app_nil_r. split; [done|].
    split; [done|]. split; [intros j Hj; simpl in Hj; lia|].
    split; [constructor|by left].
  - destruct (load host 2 d (offset + 2 * i)) as [c|] eqn:Hc; [|done].
    cbn [mbind option_bind] in H. destruct (decide (eos = c)) as [->|Hce].
    { injection H as <-. exists []. rewrite app_nil_r. split; [done|].
      split; [simpl; lia|]. split; [intros j Hj; simpl in Hj; lia|].
      split; [constructor|]. right. cbn [length].
      by replace (offset + 2 * i + 2 * 0)%nat with (offset + 2 * i)%nat by lia. }
    apply IH in H as (t & -> & Hl & Hj & Hok & Hend).
    exists (c :: t). rewrite <- app_assoc. split; [done|].
    split; [simpl; lia|]. split; [|split].
    + intros [|j] Hlt; cbn [length] in Hlt.
      * by replace (offset + 2 * i + 2 * 0)%nat with (offset + 2 * i)%nat by lia.
      * change ((c :: t) !! S j) with (t !! j).
        rewrite <- Hj by lia. f_equal. lia.
    + constructor; [congruence|done].
    + cbn [length]. destruct Hend as [?|Hend]; [left; lia|right].
      rewrite <- Hend. f_equal. lia.
Qed.

Lemma readUnicode_loop_Some host d offset eos n : ∀ i acc,
  (offset + 2 * (i + n) ≤ length d)%nat →
  is_Some (readUnicode_loop host d offset eos n i acc).
Proof.
  induction n as [|n IH]; intros i acc Hlen; cbn [readUnicode_loop]; [done|].
  destruct (load_Some host 2 d (offset + 2 * i)) as [c ->]; [lia|].
  cbn [mbind option_bind]. case_decide; [done|]. apply IH. lia.
Qed.

(** Property X10.  With [maxlen] 16-bit code units inside the buffer and
    a 16-bit terminator, [writeUnicode] is defined; [readUnicode] then
    returns the first [maxlen] code units of the string, when they are
    16-bit code units different from the terminator (null code units
    among them are kept); every position from the end of the string up to
    [maxlen] holds the terminator; and no byte outside the
    [2 * maxlen] bytes of the field changes. *)
Theorem readUnicode_writeUnicode host (d : list Z) (offset maxlen : nat)
    (s : list Z) (eos : Z) :
  (offset + 2 * maxlen ≤ length d)%nat → 0 ≤ eos < 2 ^ 16 →
  ∃ d', writeUnicode host d offset s maxlen eos = Some d'
        ∧ (plainUnicode eos (take maxlen s) →
           readUnicode host d' offset maxlen eos = Some (take maxlen s))
        ∧ (∀ i : nat, (length s ≤ i < maxlen)%nat →
             load host 2 d' (offset + 2 * i) = Some eos)
        ∧ modifies_only offset (2 * maxlen) d d'.
Proof.
  intros Hlen Heos. unfold writeUnicode, readUnicode.
  assert (uint16_t eos = eos) as Hcast by by apply Z.mod_small.
  rewrite Hcast.
  destruct (writeUnicode_loop_spec host s eos offset maxlen d 0)
    as (d' & Hw & Hd'); [lia|].
  exists d'. split; [done|]. split; [|split].
  - intros Hs.
    apply (readUnicode_loop_spec host d' offset eos (take maxlen s) maxlen 0 []).
    + rewrite length_take. lia.
    + intros j Hj. rewrite length_take in Hj. rewrite Nat.add_0_l.
      rewrite Hd' by lia. unfold unicodeAt. rewrite lookup_take_lt by lia.
      destruct (s !! j) as [u|] eqn:Hu.
      * assert (take maxlen s !! j = Some u) as Ht
          by by rewrite lookup_take_lt by lia.
        pose proof (Forall_lookup_1 _ _ _ _ Hs Ht) as [Hu' _]. simpl in Hu'.
        f_equal. by apply Z.mod_small.
      * apply lookup_ge_None in Hu. lia.
    + eapply Forall_impl; [exact Hs|]. simpl. by intros u [_ ?].
    + rewrite length_take, Nat.add_0_l.
      destruct (decide (maxlen ≤ length s)%nat); [left; lia|].
      right. rewrite Nat.min_r by lia. rewrite Hd' by lia.
      unfold unicodeAt. rewrite lookup_ge_None_2 by lia. by rewrite Hcast.
  - intros i Hi. rewrite Hd' by lia. unfold unicodeAt.
    rewrite lookup_ge_None_2 by lia. by rewrite Hcast.
  - apply writeUnicode_loop_modifies in Hw.
    by replace (offset + 2 * 0)%nat with offset in Hw by lia.
Qed.

Lemma readUnicode_writeUnicode_witness :
  ∃ d', writeUnicode BigEndian [9; 9; 9; 9; 9; 9; 9] 1 [0x20ac; 0; 0x42] 3 0xffff
        = Some d'
        ∧ readUnicode BigEndian d' 1 3 0xffff = Some [0x20ac; 0; 0x42]
        ∧ d' !! 0%nat = Some 9.
Proof.
  destruct (readUnicode_writeUnicode BigEndian [9; 9; 9; 9; 9; 9; 9] 1 3
              [0x20ac; 0; 0x42] 0xffff) as (d' & Hw & Hr & _ & [_ Hf]).
  - simpl. lia.
  - lia.
  - exists d'. split; [exact Hw|]. split.
    + apply Hr. unfold plainUnicode. simpl.
      repeat apply Forall_cons_2; try apply Forall_nil_2; lia.
    + rewrite Hf; [reflexivity|lia].
Defined.

(** Property X11.  Where [readUnicode] stops, on any buffer.  The code
    units it returns are those at the offset, in the host's byte order,
    none of them the terminator, and they end at [maxlen] code units or
    before a terminator in the buffer.  It is defined when [maxlen] code
    units lie inside the buffer. *)
Theorem readUnicode_stops host (d : list Z) (offset maxlen : nat) (eos : Z) :
  0 ≤ eos < 2 ^ 16 →
  (∀ txt, readUnicode host d offset maxlen eos = Some txt →
          stopsAt16 host d offset maxlen eos txt)
  ∧ ((offset + 2 * maxlen ≤ length d)%nat →
     is_Some (readUnicode host d offset maxlen eos)).
Proof.
  intros Heos. unfold readUnicode.
  assert (uint16_t eos = eos) as -> by by apply Z.mod_small.
  split.
  - intros txt (t & -> & Hst)%readUnicode_loop_inv.
    by replace (offset + 2 * 0)%nat with offset in Hst by lia.
  - intros Hlen. apply readUnicode_loop_Some. lia.
Qed.

Lemma readUnicode_stops_witness :
  stopsAt16 LittleEndian [0x41; 0; 0; 0; 0xff; 0xff; 0x42; 0] 0 4 0xffff
    [0x41; 0].
Proof.
  apply (readUnicode_stops LittleEndian [0x41; 0; 0; 0; 0xff; 0xff; 0x42; 0]
           0 4 0xffff); [lia|reflexivity].
Defined.

(** * Further properties of the registry *)

Lemma hasTable_descends ctx m m' :
  descends m' m → hasTable ctx m = true → hasTable ctx m' = true.
Proof.
  induction 1 as [|name s m _ IH]; [done|]. intros Hm. simpl.
  case_decide; [done|]. by apply IH.
Qed.

Lemma hasTable_registered ctx m :
  is_Some (_tables ctx !! className m) → hasTable ctx m = true.
Proof. intros H. destruct m; simpl in *; by rewrite decide_True. Qed.

(** A context with more tables resolves at least the classes the
    smaller one does. *)
Lemma hasTable_mono ctx ctx' m :
  (∀ k, is_Some (_tables ctx !! k) → is_Some (_tables ctx' !! k)) →
  hasTable ctx m = true → hasTable ctx' m = true.
Proof.
  intros Hsub. induction m as [name|name super IH]; simpl;
    repeat case_decide; try done; naive_solver.
Qed.

Lemma addTable_keeps ctx m k t :
  _tables ctx !! k = Some t → _tables (snd (addTable ctx m)) !! k = Some t.
Proof.
  intros Hk. unfold addTable.
  destruct (hasTable ctx m) eqn:Hm; simpl; [done|].
  rewrite lookup_insert_ne; [done|]. intros <-.
  rewrite (hasTable_registered ctx m) in Hm; [done|by rewrite Hk].
Qed.

Lemma hasTable_addTable ctx m : hasTable (snd (addTable ctx m)) m = true.
Proof.
  unfold addTable. destruct (hasTable ctx m) eqn:Hm; simpl; [done|].
  apply hasTable_registered. simpl. rewrite lookup_insert_eq. by eexists.
Qed.

(** Property X12.  After [addTable] for a class, the class and each of
    its descendants resolves to a table; every table that was there is
    still there with its content, every class that resolved still
    resolves; a second [addTable] for the same class returns [false] and
    changes nothing.  When the call returns [true] the class had no table
    of its own and now has an empty one; when it returns [false] the
    context is the one given. *)
Theorem addTable_spec ctx (m : QMetaObject) :
  (∀ m', descends m' m → hasTable (snd (addTable ctx m)) m' = true)
  ∧ (∀ k t, _tables ctx !! k = Some t →
            _tables (snd (addTable ctx m)) !! k = Some t)
  ∧ (∀ m', hasTable ctx m' = true → hasTable (snd (addTable ctx m)) m' = true)
  ∧ addTable (snd (addTable ctx m)) m = (false, snd (addTable ctx m))
  ∧ (fst (addTable ctx m) = true →
     _tables ctx !! className m = None
     ∧ _tables (snd (addTable ctx m)) !! className m = Some (mkTable ∅ ∅))
  ∧ (fst (addTable ctx m) = false → snd (addTable ctx m) = ctx).
Proof.
  split; [|split; [|split; [|split; [|split]]]].
  - intros m' Hd. eapply hasTable_descends; [exact Hd|apply hasTable_addTable].
  - intros k t. apply addTable_keeps.
  - intros m'. apply hasTable_mono. intros k [t Ht].
    rewrite (addTable_keeps _ _ _ _ Ht). by eexists.
  - unfold addTable at 1. by rewrite hasTable_addTable.
  - unfold addTable. destruct (hasTable ctx m) eqn:Hm; simpl; [done|].
    intros _. split; [|by rewrite lookup_insert_eq].
    apply eq_None_not_Some. intros Hs.
    by rewrite (hasTable_registered ctx m Hs) in Hm.
  - unfold addTable. by destruct (hasTable ctx m).
Qed.

Lemma addTable_spec_witness :
  hasTable (snd (addTable (mkContext ∅) (Channel Example.classes)))
    Example.digitalChannel = true
  ∧ _tables (snd (addTable (mkContext ∅) (Channel Example.classes)))
      !! "Channel"%string = Some (mkTable ∅ ∅).
Proof.
  destruct (addTable_spec (mkContext ∅) (Channel Example.classes))
    as (Hd & _ & _ & _ & Hnew & _).
  split.
  - apply Hd. apply descends_sub, descends_refl.
  - apply Hnew. reflexivity.
Defined.

Lemma allEmpty_addTable ctx m : allEmpty ctx → allEmpty (snd (addTable ctx m)).
Proof.
  intros He k t. unfold addTable. destruct (hasTable ctx m); simpl; [apply He|].
  destruct (decide (className m = k)) as [->|Hne].
  - rewrite lookup_insert_eq. by intros [= <-].
  - rewrite lookup_insert_ne by done. apply He.
Qed.

Lemma allEmpty_newContext cls : allEmpty (newContext cls).
Proof.
  unfold newContext. do 10 apply allEmpty_addTable.
  intros k t. simpl. by rewrite lookup_empty.
Qed.

Lemma tableAt_Some ctx m :
  hasTable ctx m = true →
  ∃ k t, getTable ctx m = Some k ∧ _tables ctx !! k = Some t
         ∧ tableAt ctx m = Some t.
Proof.
  intros [k Hk]%hasTable_getTable.
  destruct (getTable_registered _ _ _ Hk) as [t Ht].
  exists k, t. unfold tableAt. rewrite Hk. simpl. by rewrite Ht.
Qed.

Section RegistryMore.
Variable metaObject : ConfigObject → QMetaObject.

(** Property X13.  The context the constructor builds, for any ten
    classes: all its tables are empty, each of the ten classes resolves
    to a table, [obj] returns null at every class and index, and [index]
    returns -1 for every entity. *)
Theorem newContext_spec cls :
  allEmpty (newContext cls)
  ∧ (∀ c, c ∈ staticClasses cls → hasTable (newContext cls) c = true)
  ∧ (∀ elementType idx, obj (newContext cls) elementType idx = Some None)
  ∧ (∀ o, index metaObject (newContext cls) o = Some (-1)).
Proof.
  pose proof (allEmpty_newContext cls) as He.
  split; [done|]. split; [|split].
  - assert (∀ ctx m c, hasTable ctx c = true →
                       hasTable (snd (addTable ctx m)) c = true) as Hmono.
    { intros ctx m c. apply hasTable_mono. intros k [t Ht].
      rewrite (addTable_keeps _ _ _ _ Ht). by eexists. }
    intros c Hc. unfold staticClasses in Hc. unfold newContext.
    repeat (apply elem_of_cons in Hc as [->|Hc];
            [repeat (first [apply hasTable_addTable|apply Hmono])|]).
    by apply elem_of_nil in Hc.
  - intros elementType idx. unfold obj.
    destruct (hasTable (newContext cls) elementType) eqn:Hm; [|done]. simpl.
    destruct (tableAt_Some _ _ Hm) as (k & t & _ & Ht & ->). simpl.
    by rewrite (He _ _ Ht).
  - intros o. unfold index.
    destruct (hasTable (newContext cls) (metaObject o)) eqn:Hm; [|done]. simpl.
    destruct (tableAt_Some _ _ Hm) as (k & t & _ & Ht & ->). simpl.
    by rewrite (He _ _ Ht).
Qed.

(** Property X14.  The guard [hasTable] protects every use of
    [getTable]: [obj], [index] and [add] never reach the null dereference
    at the end of [getTable]'s recursion, in any context and at any
    argument; and [hasTable] is [true] exactly for the classes that have
    a nearest table. *)
Theorem guarded_calls_defined ctx (elementType : QMetaObject)
    (o : ConfigObject) (idx : Z) :
  is_Some (obj ctx elementType idx)
  ∧ is_Some (index metaObject ctx o)
  ∧ is_Some (add metaObject ctx o idx)
  ∧ (hasTable ctx elementType = true ↔ ∃ cat, nearestTable ctx elementType cat).
Proof.
  split; [|split; [|split]].
  - unfold obj. destruct (hasTable ctx elementType) eqn:Hm; [|done]. simpl.
    by destruct (tableAt_Some _ _ Hm) as (k & t & _ & _ & ->).
  - unfold index. destruct (hasTable ctx (metaObject o)) eqn:Hm; [|done]. simpl.
    by destruct (tableAt_Some _ _ Hm) as (k & t & _ & _ & ->).
  - rewrite add_unfold.
    destruct (getTable ctx (metaObject o)) as [k|] eqn:Hk; [|done].
    destruct (getTable_registered _ _ _ Hk) as [t ->]. simpl.
    repeat case_decide; done.
  - rewrite hasTable_getTable. split.
    + intros [k Hk]. exists k. by apply getTable_nearest.
    + intros [k Hk%getTable_nearest]. by rewrite Hk.
Qed.
End RegistryMore.

Lemma newContext_spec_witness :
  hasTable (newContext Example.classes) (GPSSystem Example.classes) = true
  ∧ index Example.dynamicType (newContext Example.classes) 1 = Some (-1).
Proof.
  destruct (newContext_spec Example.dynamicType Example.classes)
    as (_ & Hhas & _ & Hidx).
  split; [|apply Hidx]. apply Hhas.
  apply (list_elem_of_lookup_2 _ 7%nat). reflexivity.
Defined.

Lemma guarded_calls_defined_witness :
  ∃ cat, nearestTable Example.oneChannel Example.analogChannel cat.
Proof.
  destruct (guarded_calls_defined Example.dynamicType Example.oneChannel
              Example.analogChannel 1%positive 0) as (_ & _ & _ & Hiff).
  apply (proj1 Hiff). vm_compute. reflexivity.
Defined.

Lemma obj_unfold ctx elementType idx :
  obj ctx elementType idx =
  match getTable ctx elementType with
  | None => Some None
  | Some k => t ← _tables ctx !! k; Some (objects t !! idx)
  end.
Proof.
  unfold obj, tableAt. destruct (getTable ctx elementType) as [k|] eqn:Hk.
  - assert (hasTable ctx elementType = true) as ->
      by (apply hasTable_getTable; by rewrite Hk). done.
  - by apply hasTable_false in Hk as ->.
Qed.

Lemma int_uint i : 0 ≤ i < 2 ^ 32 → 0 ≤ int i → int i = i.
Proof.
  unfold int. intros Hi Hpos.
  destruct (decide (i < 2 ^ 31)).
  - rewrite Z.mod_small by lia. lia.
  - replace (i + 2 ^ 31) with (i - 2 ^ 31 + 1 * 2 ^ 32) in * by lia.
    rewrite Z.mod_add in * by lia. rewrite Z.mod_small in * by lia. lia.
Qed.

Lemma int_small i : 0 ≤ i < 2 ^ 31 → int i = i.
Proof. unfold int. intros Hi. rewrite Z.mod_small by lia. lia. Qed.

Lemma int_inj i j : 0 ≤ i < 2 ^ 32 → 0 ≤ j < 2 ^ 32 → int i = int j → i = j.
Proof.
  unfold int. intros Hi Hj Heq.
  assert ((i + 2 ^ 31) mod 2 ^ 32 = (j + 2 ^ 31) mod 2 ^ 32) as Hm by lia.
  destruct (decide (i < 2 ^ 31)), (decide (j < 2 ^ 31)).
  - rewrite !Z.mod_small in Hm by lia. lia.
  - replace (j + 2 ^ 31) with (j - 2 ^ 31 + 1 * 2 ^ 32) in Hm by lia.
    rewrite Z.mod_add in Hm by lia. rewrite !Z.mod_small in Hm by lia. lia.
  - replace (i + 2 ^ 31) with (i - 2 ^ 31 + 1 * 2 ^ 32) in Hm by lia.
    rewrite Z.mod_add in Hm by lia. rewrite !Z.mod_small in Hm by lia. lia.
  - replace (i + 2 ^ 31) with (i - 2 ^ 31 + 1 * 2 ^ 32) in Hm by lia.
    replace (j + 2 ^ 31) with (j - 2 ^ 31 + 1 * 2 ^ 32) in Hm by lia.
    rewrite !Z.mod_add in Hm by lia. rewrite !Z.mod_small in Hm by lia. lia.
Qed.

Section RegistryRuns.
Variable metaObject : ConfigObject → QMetaObject.

Lemma index_unfold ctx o :
  index metaObject ctx o =
  match getTable ctx (metaObject o) with
  | None => Some (-1)
  | Some k => t ← _tables ctx !! k; Some (int (default (-1) (indices t !! o)))
  end.
Proof.
  unfold index, tableAt. destruct (getTable ctx (metaObject o)) as [k|] eqn:Hk.
  - assert (hasTable ctx (metaObject o) = true) as ->
      by (apply hasTable_getTable; by rewrite Hk). done.
  - by apply hasTable_false in Hk as ->.
Qed.

(** The two outcomes of [add]. *)
Lemma add_cases ctx o idx r ctx' :
  add metaObject ctx o idx = Some (r, ctx') →
  (r = false ∧ ctx' = ctx)
  ∨ (r = true ∧ ∃ k t,
       getTable ctx (metaObject o) = Some k ∧ _tables ctx !! k = Some t
       ∧ indices t !! o = None ∧ objects t !! idx = None
       ∧ ctx' = mkContext (<[k := mkTable (<[idx := o]> (objects t))
                                          (<[o := idx]> (indices t))]>
                             (_tables ctx))).
Proof.
  rewrite add_unfold.
  destruct (getTable ctx (metaObject o)) as [k|] eqn:Hk;
    [|intros [= <- <-]; by left].
  destruct (_tables ctx !! k) as [t|] eqn:Ht; [|done]. simpl.
  destruct (decide (is_Some (indices t !! o))) as [|Ho];
    [intros [= <- <-]; by left|].
  destruct (decide (is_Some (objects t !! idx))) as [|Hi];
    [intros [= <- <-]; by left|].
  intros [= <- <-]. right. split; [done|]. exists k, t.
  by rewrite <- !eq_None_not_Some in *.
Qed.

Lemma add_getTable ctx o idx r ctx' m :
  add metaObject ctx o idx = Some (r, ctx') →
  getTable ctx' m = getTable ctx m.
Proof.
  intros [[_ ->]|[_ (k & t & _ & Ht & _ & _ & ->)]]%add_cases; [done|].
  apply getTable_overwrite. by rewrite Ht.
Qed.

(** Property X15.  What a successful [add] registers can be looked up:
    [obj] at the entity's class and the index returns the entity, and so
    at every class that resolves to the same table; [index] returns the
    index converted to [int], which is the index itself below [2 ^ 31];
    and adding the entity again at that index returns [false] and
    changes nothing. *)
Theorem add_then_lookup ctx (o : ConfigObject) (idx : Z) ctx' :
  add metaObject ctx o idx = Some (true, ctx') →
  obj ctx' (metaObject o) idx = Some (Some o)
  ∧ index metaObject ctx' o = Some (int idx)
  ∧ (0 ≤ idx < 2 ^ 31 → index metaObject ctx' o = Some idx)
  ∧ (∀ elementType cat,
       nearestTable ctx elementType cat →
       nearestTable ctx (metaObject o) cat →
       obj ctx' elementType idx = Some (Some o))
  ∧ add metaObject ctx' o idx = Some (false, ctx').
Proof.
  intros Hadd.
  assert (∀ m, getTable ctx' m = getTable ctx m) as Hget
    by (intros m; by eapply add_getTable).
  destruct (add_cases _ _ _ _ _ Hadd)
    as [[? _]|[_ (k & t & Hk & Ht & Ho & Hi & ->)]]; [done|].
  assert (index metaObject
            (mkContext (<[k := mkTable (<[idx := o]> (objects t))
                                       (<[o := idx]> (indices t))]>
                          (_tables ctx))) o = Some (int idx)) as Hindex.
  { rewrite index_unfold, Hget, Hk. simpl. rewrite lookup_insert_eq. simpl.
    by rewrite lookup_insert_eq. }
  split; [|split; [|split; [|split]]].
  - rewrite obj_unfold, Hget, Hk. simpl. rewrite lookup_insert_eq. simpl.
    by rewrite lookup_insert_eq.
  - done.
  - intros Hr. by rewrite Hindex, int_small.
  - intros elementType cat H1%getTable_nearest H2%getTable_nearest.
    assert (cat = k) as -> by congruence.
    rewrite obj_unfold, Hget, H1. simpl. rewrite lookup_insert_eq. simpl.
    by rewrite lookup_insert_eq.
  - rewrite add_unfold, Hget, Hk. simpl. rewrite lookup_insert_eq. simpl.
    rewrite decide_True; [done|]. rewrite lookup_insert_eq. by eexists.
Qed.



(** Property X16.  What [add] leaves alone, whether it succeeds or not:
    every class resolves to the table it resolved to; [obj] returns what
    it did at every other index, and at every index for a class that
    resolves to another table or to none; [index] returns what it did
    for every other entity.  A failed [add] returns the context it was
    given. *)
Theorem add_frame ctx (o : ConfigObject) (idx : Z) r ctx' :
  add metaObject ctx o idx = Some (r, ctx') →
  (∀ m cat, nearestTable ctx' m cat ↔ nearestTable ctx m cat)
  ∧ (∀ m, hasTable ctx' m = hasTable ctx m)
  ∧ (∀ elementType idx', idx' ≠ idx →
       obj ctx' elementType idx' = obj ctx elementType idx')
  ∧ (∀ elementType,
       (∀ cat, nearestTable ctx elementType cat →
               ¬ nearestTable ctx (metaObject o) cat) →
       ∀ idx', obj ctx' elementType idx' = obj ctx elementType idx')
  ∧ (∀ o', o' ≠ o → index metaObject ctx' o' = index metaObject ctx o')
  ∧ (r = false → ctx' = ctx).
Proof.
  intros Hadd.
  assert (∀ m, getTable ctx' m = getTable ctx m) as Hget
    by (intros m; by eapply add_getTable).
  split; [|split].
  { intros m cat. by rewrite <- !getTable_nearest, Hget. }
  { intros m. destruct (hasTable ctx m) eqn:Hm.
    - apply hasTable_getTable. rewrite Hget. by apply hasTable_getTable.
    - apply hasTable_false. rewrite Hget. by apply hasTable_false. }
  destruct (add_cases _ _ _ _ _ Hadd)
    as [[-> ->]|[-> (k & t & Hk & Ht & Ho & Hi & ->)]]; [done|].
  split; [|split; [|split]].
  - intros elementType idx' Hne. rewrite !obj_unfold, Hget.
    destruct (getTable ctx elementType) as [k'|]; [|done]. simpl.
    destruct (decide (k = k')) as [<-|Hk'].
    + rewrite lookup_insert_eq, Ht. simpl. by rewrite lookup_insert_ne.
    + by rewrite lookup_insert_ne.
  - intros elementType Hother idx'. rewrite !obj_unfold, Hget.
    destruct (getTable ctx elementType) as [k'|] eqn:Hk'; [|done]. simpl.
    rewrite lookup_insert_ne; [done|]. intros <-.
    by apply (Hother k); apply getTable_nearest.
  - intros o' Hne. rewrite !index_unfold, Hget.
    destruct (getTable ctx (metaObject o')) as [k'|]; [|done]. simpl.
    destruct (decide (k = k')) as [<-|Hk'].
    + rewrite lookup_insert_eq, Ht. simpl. by rewrite lookup_insert_ne.
    + by rewrite lookup_insert_ne.
  - done.
Qed.



Lemma add_keeps ctx o idx r ctx' :
  add metaObject ctx o idx = Some (r, ctx') →
  (∀ elementType i e, obj ctx elementType i = Some (Some e) →
                      obj ctx' elementType i = Some (Some e))
  ∧ (∀ e i, index metaObject ctx e = Some i → i ≠ -1 →
            index metaObject ctx' e = Some i).
Proof.
  intros Hadd.
  assert (∀ m, getTable ctx' m = getTable ctx m) as Hget
    by (intros m; by eapply add_getTable).
  destruct (add_cases _ _ _ _ _ Hadd)
    as [[-> ->]|[-> (k & t & Hk & Ht & Ho & Hi & ->)]]; [done|].
  split.
  - intros elementType i e. rewrite !obj_unfold, Hget.
    destruct (getTable ctx elementType) as [k'|]; [|done]. simpl.
    destruct (decide (k = k')) as [<-|Hk'].
    + rewrite lookup_insert_eq, Ht. simpl. intros [= He].
      rewrite lookup_insert_ne; [by rewrite He|]. intros <-. congruence.
    + by rewrite lookup_insert_ne.
  - intros e i. rewrite !index_unfold, Hget.
    destruct (getTable ctx (metaObject e)) as [k'|]; [|done]. simpl.
    destruct (decide (k = k')) as [<-|Hk'].
    + rewrite lookup_insert_eq, Ht. simpl. intros [= He] Hi1.
      rewrite lookup_insert_ne; [by rewrite He|]. intros <-.
      rewrite Ho in He. simpl in He. by vm_compute in He.
    + by rewrite lookup_insert_ne.
Qed.

(** Property X17.  Along any run of [add] calls no entry is lost or
    moved: an entity [obj] returned is returned at the same class and
    index afterwards, an index [index] returned (other than -1) is
    returned afterwards, and the classes that resolve to a table, and the
    table each resolves to, stay the same. *)
Theorem entries_persist ctx ctx' :
  addsTo metaObject ctx ctx' →
  (∀ elementType i e, obj ctx elementType i = Some (Some e) →
                      obj ctx' elementType i = Some (Some e))
  ∧ (∀ e i, index metaObject ctx e = Some i → i ≠ -1 →
            index metaObject ctx' e = Some i)
  ∧ (∀ m, hasTable ctx' m = hasTable ctx m)
  ∧ (∀ m cat, nearestTable ctx' m cat ↔ nearestTable ctx m cat).
Proof.
  induction 1 as [ctx|ctx o idx r ctx1 ctx2 _ Hadd _ (IHo & IHi & IHh & IHn)].
  { done. }
  destruct (add_keeps _ _ _ _ _ Hadd) as [Ho Hi].
  split; [|split; [|split]].
  - intros elementType i e He. by apply IHo, Ho.
  - intros e i He Hne. by apply IHi; [apply Hi|].
  - intros m. rewrite IHh. destruct (hasTable ctx m) eqn:Hm.
    + apply hasTable_getTable. rewrite (add_getTable _ _ _ _ _ _ Hadd).
      by apply hasTable_getTable.
    + apply hasTable_false. rewrite (add_getTable _ _ _ _ _ _ Hadd).
      by apply hasTable_false.
  - intros m cat. rewrite IHn.
    by rewrite <- !getTable_nearest, (add_getTable _ _ _ _ _ _ Hadd).
Qed.

Lemma consistent_allEmpty ctx : allEmpty ctx → consistent metaObject ctx.
Proof.
  intros He k t Ht. rewrite (He _ _ Ht). split; [apply mirrored_empty|].
  intros i e. simpl. by rewrite lookup_empty.
Qed.

Lemma consistent_add ctx o idx r ctx' :
  0 ≤ idx < 2 ^ 32 → add metaObject ctx o idx = Some (r, ctx') →
  consistent metaObject ctx → consistent metaObject ctx'.
Proof.
  intros Hidx Hadd Hc k' t' Ht'. split.
  { eapply (add_mirrored metaObject); [exact Hadd| |exact Ht'].
    intros k t Ht. by apply (Hc k t). }
  intros i e He. rewrite (add_getTable _ _ _ _ _ _ Hadd).
  destruct (add_cases _ _ _ _ _ Hadd)
    as [[-> ->]|[-> (k & t & Hk & Ht & Ho & Hi & ->)]].
  { by apply (Hc k' t'). }
  simpl in Ht'. destruct (decide (k = k')) as [<-|Hne].
  - rewrite lookup_insert_eq in Ht'. injection Ht' as <-. simpl in He.
    destruct (decide (idx = i)) as [<-|Hi'].
    + rewrite lookup_insert_eq in He. by injection He as <-.
    + rewrite lookup_insert_ne in He by done. by apply (Hc k t).
  - rewrite lookup_insert_ne in Ht' by done. by apply (Hc k' t').
Qed.

Lemma consistent_addsTo ctx ctx' :
  addsTo metaObject ctx ctx' →
  consistent metaObject ctx → consistent metaObject ctx'.
Proof.
  induction 1 as [|ctx o idx r ctx1 ctx2 Hidx Hadd _ IH]; [done|].
  intros Hc. by eapply IH, consistent_add.
Qed.

(** Property X18.  In a context built by [add] calls from one whose
    tables are empty, [obj] and [index] are inverse to each other: an
    entity [obj] returns at an index, for whatever class, has that index
    as its [index] and is returned by [obj] at its own class; an entity
    with a non-negative [index] is returned by [obj] at its class and
    that index; an entity is never found at two indices. *)
Theorem obj_index_inverse ctx0 ctx :
  allEmpty ctx0 → addsTo metaObject ctx0 ctx →
  (∀ elementType idx o,
     obj ctx elementType idx = Some (Some o) →
     0 ≤ idx < 2 ^ 32
     ∧ index metaObject ctx o = Some (int idx)
     ∧ obj ctx (metaObject o) idx = Some (Some o))
  ∧ (∀ o i, index metaObject ctx o = Some i → 0 ≤ i →
            obj ctx (metaObject o) i = Some (Some o))
  ∧ (∀ type1 type2 i1 i2 o,
       obj ctx type1 i1 = Some (Some o) → obj ctx type2 i2 = Some (Some o) →
       i1 = i2).
Proof.
  intros He Hrun.
  assert (consistent metaObject ctx) as Hc
    by (eapply consistent_addsTo; [exact Hrun|by apply consistent_allEmpty]).
  assert (∀ elementType idx o,
     obj ctx elementType idx = Some (Some o) →
     0 ≤ idx < 2 ^ 32
     ∧ index metaObject ctx o = Some (int idx)
     ∧ obj ctx (metaObject o) idx = Some (Some o)) as Hfwd.
  { intros elementType idx o. rewrite (obj_unfold ctx elementType).
    destruct (getTable ctx elementType) as [k|]; [|done].
    destruct (_tables ctx !! k) as [t|] eqn:Ht; [|done]. simpl.
    intros [= Ho]. destruct (Hc k t Ht) as [Hm Hin].
    destruct (Hin _ _ Ho) as [Hr Hk]. split; [done|].
    rewrite index_unfold, obj_unfold, Hk. simpl. rewrite Ht. simpl.
    apply Hm in Ho as Ho'. by rewrite Ho', Ho. }
  split; [exact Hfwd|]. split.
  - intros o i. rewrite index_unfold, obj_unfold.
    destruct (getTable ctx (metaObject o)) as [k|]; [|intros [= <-]; lia].
    destruct (_tables ctx !! k) as [t|] eqn:Ht; [|done]. simpl.
    destruct (Hc k t Ht) as [Hm Hin].
    destruct (indices t !! o) as [idx|] eqn:Ho; simpl.
    + intros [= <-] Hpos. apply Hm in Ho.
      destruct (Hin _ _ Ho) as [Hr _]. rewrite int_uint by done.
      by rewrite Ho.
    + intros [= <-]. by vm_compute.
  - intros type1 type2 i1 i2 o H1 H2.
    destruct (Hfwd _ _ _ H1) as (Hr1 & Hi1 & _).
    destruct (Hfwd _ _ _ H2) as (Hr2 & Hi2 & _).
    apply int_inj; [done..|congruence].
Qed.
End RegistryRuns.

Lemma add_then_lookup_witness :
  obj Example.oneChannel Example.digitalChannel 5 = Some (Some 1%positive)
  ∧ index Example.dynamicType Example.oneChannel 1 = Some 5
  ∧ obj Example.oneChannel (Channel Example.classes) 5 = Some (Some 1%positive).
Proof.
  destruct (add_then_lookup Example.dynamicType (newContext Example.classes) 1%positive 5
              Example.oneChannel) as (Hobj & _ & Hidx & Hany & _).
  { vm_compute. reflexivity. }
  split; [exact Hobj|]. split; [apply Hidx; lia|].
  apply (Hany _ "Channel"%string); apply getTable_nearest;
    vm_compute; reflexivity.
Defined.

Lemma add_frame_witness :
  hasTable Example.oneChannel (Zone Example.classes) = true
  ∧ obj Example.oneChannel Example.analogChannel 4 = Some None
  ∧ obj Example.oneChannel (Zone Example.classes) 5 = Some None
  ∧ index Example.dynamicType Example.oneChannel 2 = Some (-1).
Proof.
  destruct (add_frame Example.dynamicType (newContext Example.classes) 1%positive 5 true
              Example.oneChannel) as (_ & Hhas & Hidx & Hty & Hobj & _).
  { vm_compute. reflexivity. }
  split; [rewrite Hhas; vm_compute; reflexivity|].
  split; [rewrite Hidx by lia; vm_compute; reflexivity|].
  split; [|rewrite Hobj by lia; vm_compute; reflexivity].
  rewrite Hty; [vm_compute; reflexivity|].
  intros cat H1%getTable_nearest H2%getTable_nearest.
  vm_compute in H1, H2. congruence.
Defined.

Lemma entries_persist_witness :
  obj twoChannels Example.analogChannel 5 = Some (Some 1%positive)
  ∧ index Example.dynamicType twoChannels 1 = Some 5.
Proof.
  destruct (entries_persist Example.dynamicType Example.oneChannel
              twoChannels) as (Hobj & Hidx & _).
  { apply (addsTo_step _ _ 2%positive 6 true twoChannels);
      [lia|vm_compute; reflexivity|apply addsTo_refl]. }
  split; [apply Hobj|apply Hidx; [|lia]]; vm_compute; reflexivity.
Defined.

Lemma obj_index_inverse_witness :
  index Example.dynamicType Example.oneChannel 1 = Some (int 5)
  ∧ obj Example.oneChannel Example.digitalChannel 5 = Some (Some 1%positive).
Proof.
  destruct (obj_index_inverse Example.dynamicType
              (newContext Example.classes) Example.oneChannel)
    as (Hfwd & Hback & _).
  { apply allEmpty_newContext. }
  { apply (addsTo_step _ _ 1%positive 5 true Example.oneChannel);
      [lia|vm_compute; reflexivity|apply addsTo_refl]. }
  split.
  - apply (Hfwd Example.analogChannel 5 1%positive). vm_compute. reflexivity.
  - apply (Hback 1%positive 5); [vm_compute; reflexivity|lia].
Defined.

End CodePlug.
